(** * LOGICOM utilities: batch runner, result store and log formatter

    A shallow embedding of [utils/multiple_runs.py], [utils/utils.py] and
    [utils/log_main.py], with the properties of the design document stated
    and proved over it.

    Conventions.  Python values that the code only stores or compares are
    values of [pyval]; a Python [dict] whose order is observable is an
    insertion-ordered association list ([odict]); an object's attribute
    table, whose order is never observed, is a [gmap].  A Python call that
    can raise returns [exn + A], [inl] being the raised exception.  What
    the operating system decides (the outcome of a child process, of a
    lock acquisition, of a file read or write) is an explicit argument. *)

From stdpp Require Import base decidable option list numbers strings pretty gmap.

Open Scope string_scope.
Open Scope list_scope.
Open Scope Z_scope.

(** ** Python values and exceptions *)

Inductive pyval :=
  | VNone
  | VBool (b : bool)
  | VInt (z : Z)
  | VStr (s : string)
  | VObject (repr : string).   (* any other object, by its [repr] *)

#[global] Instance pyval_eq_dec : EqDecision pyval.
Proof. solve_decision. Defined.

(** The exception classes the three modules can meet; the text is the
    exception's message. *)
Inductive exn :=
  | AttributeError (msg : string)
  | Timeout (lock_file : string)
  | OSError (msg : string)
  | ValueError (msg : string)
  | TypeError (msg : string).

Definition str_exn (e : exn) : string :=
  match e with
  | AttributeError m => m
  | Timeout f => "The file lock '" +:+ f +:+ "' could not be acquired."
  | OSError m => m
  | ValueError m => m
  | TypeError m => m
  end.

(** Python truthiness of an optional list, as in [if args.helper_types:]. *)
Definition truthy {A} (o : option (list A)) : bool :=
  match o with
  | Some (_ :: _) => true
  | _ => false
  end.

(** ** Insertion-ordered dictionaries *)

Section odict.
Context {V : Type}.

Definition odict := list (string * V).

Definition keys (d : odict) : list string := d.*1.

Fixpoint dict_get (k : string) (d : odict) : option V :=
  match d with
  | [] => None
  | (k', v) :: d' => if decide (k' = k) then Some v else dict_get k d'
  end.

Definition dict_has (k : string) (d : odict) : bool :=
  bool_decide (k ∈ keys d).

(** [d[k] = v]: an existing key keeps its position, a new key goes last. *)
Fixpoint dict_set (k : string) (v : V) (d : odict) : odict :=
  match d with
  | [] => [(k, v)]
  | (k', v') :: d' =>
      if decide (k' = k) then (k, v) :: d' else (k', v') :: dict_set k v d'
  end.

(** [d.pop(k)] for a key that is present: the value and the rest. *)
Fixpoint dict_del (k : string) (d : odict) : odict :=
  match d with
  | [] => []
  | (k', v') :: d' =>
      if decide (k' = k) then d' else (k', v') :: dict_del k d'
  end.

(** [d.update(e)]: [d[k] = v] for each item of [e], in order. *)
Fixpoint dict_update (d e : odict) : odict :=
  match e with
  | [] => d
  | (k, v) :: e' => dict_update (dict_set k v d) e'
  end.

(** A well-formed dictionary has each key once. *)
Definition dict_wf (d : odict) : Prop := NoDup (keys d).
End odict.
Arguments odict : clear implicits.

(** ** [utils/multiple_runs.py] *)

Module MultipleRuns.

(** What [yaml.safe_load] returns. *)
#[warnings="-register-all"] Inductive yaml :=
  | YNull
  | YScalar (s : string)
  | YSeq (l : list yaml)
  | YMap (m : list (string * yaml)).

(** The settings files: [None] when [open] or the parser raises. *)
Definition files := string → option yaml.

(** [load_config]: any exception is printed and [{}] returned. *)
Definition load_config (fs : files) (settings_path : string) : yaml :=
  match fs settings_path with
  | Some y => y
  | None => YMap []
  end.

Fixpoint yaml_get (k : string) (m : list (string * yaml)) : option yaml :=
  match m with
  | [] => None
  | (k', v) :: m' => if decide (k' = k) then Some v else yaml_get k m'
  end.

(** [get_available_helper_types]: [config.get] and [.keys()] exist on a
    mapping only. *)
Definition get_available_helper_types (fs : files) (settings_path : string)
  : exn + list string :=
  match load_config fs settings_path with
  | YMap config =>
      match default (YMap []) (yaml_get "agent_configurations" config) with
      | YMap agent_configs => inr agent_configs.*1
      | _ => inl (AttributeError "object has no attribute 'keys'")
      end
  | _ => inl (AttributeError "object has no attribute 'get'")
  end.

(** The external boundary: what [subprocess.run] does with a command.
    The outcome may differ from one call to the next, so it depends on
    the number of calls made before. *)
Inductive proc_outcome :=
  | Exited (returncode : Z) (stderr : string)
  | Raised (e : exn).

Definition spawner := nat → list string → proc_outcome.

Definition default_settings_path : string := "./config/settings.yaml".
Definition default_models_path : string := "./config/models.yaml".

Section runner.
Variable executable : string.   (* sys.executable *)
Variable spawn : spawner.

(** The command line of [run_single_debate]. *)
Definition command (helper_type : string) (claim_index : option Z)
    (settings_path models_path : string) : list string :=
  [executable; "main.py"; "--helper_type"; helper_type]
  ++ match claim_index with
     | Some i => ["--claim_index"; pretty i]
     | None => []
     end
  ++ (if decide (settings_path ≠ default_settings_path)
      then ["--settings_path"; settings_path] else [])
  ++ (if decide (models_path ≠ default_models_path)
      then ["--models_path"; models_path] else []).

(** [run_single_debate], as the [calls]-th call of the boundary. *)
Definition run_single_debate (calls : nat) (helper_type : string)
    (claim_index : option Z) (settings_path models_path : string) : bool :=
  match spawn calls (command helper_type claim_index settings_path models_path) with
  | Exited returncode _ => bool_decide (returncode = 0)
  | Raised _ => false
  end.

Definition run : Type := string * option Z.

Record Args := {
  helper_types : option (list string);
  claim_indexes : option (list Z);
  settings_path : string;
  models_path : string;
  list_helpers : bool;
  sequential : bool
}.

(** Lines 124-126: the inner loop of the sequential branch. *)
Fixpoint append_claims (helper_type : string) (claims : list Z)
    (runs : list run) (total_runs : nat) : list run * nat :=
  match claims with
  | [] => (runs, total_runs)
  | claim_index :: claims' =>
      append_claims helper_type claims'
        (runs ++ [(helper_type, Some claim_index)]) (S total_runs)
  end.

(** Line 129:
    [args.claim_indexes[0] if args.claim_indexes and
     len(args.claim_indexes) == 1 else None]. *)
Definition single_claim_index (claim_indexes : option (list Z)) : option Z :=
  if truthy claim_indexes && bool_decide (length (default [] claim_indexes) = 1%nat)
  then head (default [] claim_indexes)
  else None.

(** Lines 121-131: the loop that prepares the runs. *)
Fixpoint prepare_runs (args : Args) (hts : list string)
    (runs : list run) (total_runs : nat) : list run * nat :=
  match hts with
  | [] => (runs, total_runs)
  | helper_type :: hts' =>
      if sequential args && truthy (claim_indexes args) then
        let '(runs', total') :=
          append_claims helper_type (default [] (claim_indexes args)) runs total_runs in
        prepare_runs args hts' runs' total'
      else
        prepare_runs args hts'
          (runs ++ [(helper_type, single_claim_index (claim_indexes args))])
          (S total_runs)
  end.

(** The state of the execution loop, lines 141-158: the two counters,
    the number of boundary calls made so far and the commands issued. *)
Record tally := {
  successful_runs : nat;
  failed_runs : nat;
  calls : nat;
  issued : list (list string)
}.

Fixpoint execute_runs (args : Args) (runs : list run) (t : tally) : tally :=
  match runs with
  | [] => t
  | (helper_type, claim_index) :: runs' =>
      let success :=
        run_single_debate (calls t) helper_type claim_index
          (settings_path args) (models_path args) in
      let cmd := command helper_type claim_index
                   (settings_path args) (models_path args) in
      execute_runs args runs'
        (if success
         then {| successful_runs := S (successful_runs t);
                 failed_runs := failed_runs t;
                 calls := S (calls t); issued := issued t ++ [cmd] |}
         else {| successful_runs := successful_runs t;
                 failed_runs := S (failed_runs t);
                 calls := S (calls t); issued := issued t ++ [cmd] |})
  end.

Definition start : tally :=
  {| successful_runs := 0; failed_runs := 0; calls := 0; issued := [] |}.

(** How [main] ends.  Console output and the elapsed time are not
    modelled; each way of ending stands for the lines it prints. *)
Inductive ending :=
  | Uncaught (e : exn)
  | ListedHelpers (available_helpers : list string)
  | NoHelperTypes
  | InvalidHelpers (invalid_helpers available_helpers : list string)
  | Summary (runs : list run) (total_runs : nat) (t : tally) (exit_code : Z).

(** Lines 109-131: validation and preparation, once the helper types
    to run are known. *)
Definition plan (args : Args) (fs : files) (hts : list string) : ending + list run * nat :=
  match hts with
  | [] => inl NoHelperTypes
  | _ =>
      match get_available_helper_types fs (settings_path args) with
      | inl e => inl (Uncaught e)
      | inr available_helpers =>
          let invalid_helpers :=
            filter (λ h, h ∉ available_helpers) hts in
          match invalid_helpers with
          | _ :: _ => inl (InvalidHelpers invalid_helpers available_helpers)
          | [] => inr (prepare_runs args hts [] 0%nat)
          end
      end
  end.

(** Lines 98-103: the helper types to run. *)
Definition requested (args : Args) (fs : files) : exn + list string :=
  if truthy (helper_types args) then inr (default [] (helper_types args))
  else get_available_helper_types fs (settings_path args).

Definition main (args : Args) (fs : files) : ending :=
  if list_helpers args then
    match get_available_helper_types fs (settings_path args) with
    | inl e => Uncaught e
    | inr available_helpers => ListedHelpers available_helpers
    end
  else
    match requested args fs with
    | inl e => Uncaught e
    | inr hts =>
        match plan args fs hts with
        | inl stop => stop
        | inr (runs, total_runs) =>
            let t := execute_runs args runs start in
            Summary runs total_runs t
              (if decide (0 < failed_runs t)%nat then 1 else 0)
        end
    end.

(** The commands [main] hands to the external boundary. *)
Definition invocations (e : ending) : list (list string) :=
  match e with
  | Summary _ _ t _ => issued t
  | _ => []
  end.
End runner.

(** *** Inputs used in examples *)

(** A settings file whose [agent_configurations] has the given keys. *)
Definition settings_with (known : list string) : files :=
  λ _, Some (YMap [("agent_configurations", YMap (map (λ h, (h, YNull)) known))]).

(** A boundary where every child process exits with the same code. *)
Definition all_exit (code : Z) : spawner := λ _ _, Exited code "".

(** A command line with the default paths and without [--list_helpers]. *)
Definition request (hts : option (list string)) (claims : option (list Z))
    (seq : bool) : Args :=
  {| helper_types := hts; claim_indexes := claims;
     settings_path := default_settings_path; models_path := default_models_path;
     list_helpers := false; sequential := seq |}.

(** "Plan building does not fail and has one entry per variant of
    [variants]", read on [main]. *)
Definition plans_one_entry_each (executable : string) (spawn : spawner)
    (args : Args) (fs : files) (variants : list string) : Prop :=
  ∃ runs total_runs t exit_code,
    main executable spawn args fs = Summary runs total_runs t exit_code
    ∧ runs.*1 = variants.

(** *** The process seen from outside *)

(** The exit status: [sys.exit(1)] after a failed run (lines 170-171),
    1 when an exception escapes, 0 when [main] returns. *)
Definition exit_status (e : ending) : Z :=
  match e with
  | Summary _ _ _ exit_code => exit_code
  | Uncaught _ => 1
  | ListedHelpers _ | NoHelperTypes | InvalidHelpers _ _ => 0
  end.

(** What [run_single_debate] returns for each entry of a plan, the
    [n]-th entry being the [n]-th call of the boundary. *)
Definition outcomes (executable : string) (spawn : spawner) (args : Args)
    (runs : list run) : list bool :=
  imap (λ n r, run_single_debate executable spawn n r.1 r.2
                 (settings_path args) (models_path args)) runs.

(** The same command line with another value of [--sequential]. *)
Definition with_sequential (b : bool) (args : Args) : Args :=
  {| helper_types := helper_types args; claim_indexes := claim_indexes args;
     settings_path := settings_path args; models_path := models_path args;
     list_helpers := list_helpers args; sequential := b |}.

Definition is_mapping (y : yaml) : bool :=
  match y with
  | YMap _ => true
  | _ => false
  end.

(** The plan of the sequential branch: for each helper type, in order,
    one run per claim index, in order. *)
Definition product_plan (hts : list string) (claims : list Z) : list run :=
  hts ≫= λ h, (λ i, (h, Some i)) <$> claims.

End MultipleRuns.


(** ** [utils/utils.py]: the result store *)

Module Utils.

(** A row is the dictionary the code builds; a data frame is its rows in
    order (cells that [pd.concat] would fill for missing columns are not
    modelled). *)
Definition Row := odict pyval.
Definition DataFrame := list Row.

(** What is at the path of the table file: the workbook that [to_excel]
    writes for a frame, named by that frame, or content on which
    [pd.read_excel] raises.  What [pd.read_excel] loads from
    [Workbook df] need not be [df]: see [reload] below. *)
Inductive file_content :=
  | Workbook (df : DataFrame)
  | Unreadable (e : exn).

(** Calls of the module's [logger]. *)
Inductive level := INFO | WARNING | ERROR.

Record log_call := {
  levelname : level;
  msg : string;
  extra : odict pyval
}.

(** What the surroundings decide during one call.  [lock_wait] is the
    time the caller has waited, as [FileLock.acquire] measures it at its
    last failed attempt, when an attempt finds the exclusion marker free
    ([Some 0] when the first attempt does, [None] when no attempt ever
    does); [write] is how [to_excel] ends; [reload df] is the frame that
    [pd.read_excel] loads from the workbook [to_excel] wrote for [df].
    Nothing is assumed of [reload]: a workbook holds numbers as doubles
    and the types of the columns are inferred again at each load, so the
    rows that come back may differ from the rows that were saved. *)
Inductive write_outcome :=
  | Written
  | WriteFails (e : exn) (left_behind : option file_content).

Record env := {
  lock_wait : option Z;
  write : write_outcome;
  reload : DataFrame → DataFrame
}.

(** What a call can change: the table file and the log. *)
Record state := {
  disk : option file_content;
  log : list log_call
}.

(** Computations over [state] that may raise. *)
Definition M (A : Type) : Type := state → state * (exn + A).

Definition ret {A} (a : A) : M A := λ s, (s, inr a).
Definition raise {A} (e : exn) : M A := λ s, (s, inl e).
Definition bind {A B} (m : M A) (k : A → M B) : M B :=
  λ s, match m s with
       | (s', inr a) => k a s'
       | (s', inl e) => (s', inl e)
       end.
(** [try: m except Exception as e: h e] *)
Definition try_except {A} (m : M A) (h : exn → M A) : M A :=
  λ s, match m s with
       | (s', inr a) => (s', inr a)
       | (s', inl e) => h e s'
       end.

Declare Scope py_scope.
Delimit Scope py_scope with py.
Notation "x <- m ;; k" := (bind m (λ x, k))
  (at level 100, m at next level, right associativity) : py_scope.
Notation "m ;; k" := (bind m (λ _, k))
  (at level 100, right associativity) : py_scope.

Definition excel_file : string := "all_debates_summary.xlsx".
Definition lock_file : string := "all_debates_summary.xlsx.lock".
Definition lock_timeout : Z := 30.

Definition system_extra : odict pyval := [("msg_type", VStr "system")].

Definition logger_error (m : string) : M unit :=
  λ s, ({| disk := disk s;
           log := log s ++ [{| levelname := ERROR; msg := m; extra := system_extra |}] |},
        inr ()).

Definition logger_info (m : string) : M unit :=
  λ s, ({| disk := disk s;
           log := log s ++ [{| levelname := INFO; msg := m; extra := system_extra |}] |},
        inr ()).

(** [os.path.exists(excel_file)] *)
Definition path_exists : M bool :=
  λ s, (s, inr (bool_decide (is_Some (disk s)))).

(** [pd.read_excel(excel_file)] *)
Definition read_excel (ev : env) : M DataFrame :=
  λ s, match disk s with
       | Some (Workbook df) => (s, inr (reload ev df))
       | Some (Unreadable e) => (s, inl e)
       | None => (s, inl (OSError "No such file or directory"))
       end.

(** [df.to_excel(excel_file, index=False)]: when the write ends well the
    file is the workbook written for [df]; when it raises, the file is
    whatever the failed write left at the path. *)
Definition to_excel (ev : env) (df : DataFrame) : M unit :=
  λ s, match write ev with
       | Written => ({| disk := Some (Workbook df); log := log s |}, inr ())
       | WriteFails e left_behind => ({| disk := left_behind; log := log s |}, inl e)
       end.

(** [with FileLock(lock_file, timeout): m]: [acquire] raises [Timeout]
    at a failed attempt made after more than [timeout]; [m] starts once
    the marker is held, and the marker is released when [m] ends,
    normally or not. *)
Definition with_lock {A} (ev : env) (timeout : Z) (m : M A) : M A :=
  match lock_wait ev with
  | Some wait => if decide (wait ≤ timeout) then m else raise (Timeout lock_file)
  | None => raise (Timeout lock_file)
  end.

(** The [claim_data] argument: a mapping, or an object without [.get]. *)
Inductive claim_arg :=
  | Mapping (d : odict pyval)
  | NotMapping (v : pyval).

(** [claim_data.get('claim', 'Unknown claim')] *)
Definition get_claim (claim_data : claim_arg) : M pyval :=
  match claim_data with
  | Mapping d => ret (default (VStr "Unknown claim") (dict_get "claim" d))
  | NotMapping _ => raise (AttributeError "object has no attribute 'get'")
  end.

Definition new_row (topic_id claim helper_type result rounds chat_id : pyval) : Row :=
  [("topic_id", topic_id); ("claim", claim); ("helper_type", helper_type);
   ("result", result); ("rounds", rounds); ("chat_id", chat_id)].

(** [pd.concat([df, pd.DataFrame([row])], ignore_index=True)] *)
Definition concat_row (df : DataFrame) (row : Row) : DataFrame := df ++ [row].

Section save.
Variable ev : env.
Variables topic_id helper_type chat_id result rounds : pyval.
Variable claim_data : claim_arg.

Local Open Scope py_scope.

(** Lines 73-99: the row and the frame to save. *)
Definition load_frame : M DataFrame :=
  claim <- get_claim claim_data ;;
  let row := new_row topic_id claim helper_type result rounds chat_id in
  present <- path_exists ;;
  if present : bool then
    try_except
      (df <- read_excel ev ;; ret (concat_row df row))
      (λ e, logger_error ("Error reading existing Excel file: " +:+ str_exn e) ;;
            ret [row])
  else ret [row].

(** Lines 101-106: saving it. *)
Definition store_frame (df : DataFrame) : M bool :=
  to_excel ev df ;;
  logger_info ("Successfully updated debate summary in " +:+ excel_file) ;;
  ret true.

(** Lines 73-106, the body of [with lock:]. *)
Definition locked_body : M bool :=
  df <- load_frame ;;
  store_frame df.

(** Lines 108-111, the handler of the outer [try]. *)
Definition on_error (e : exn) : M bool :=
  logger_error ("Error saving debate to Excel: " +:+ str_exn e) ;;
  ret false.

Definition save_debate_in_excel : M bool :=
  try_except (with_lock ev lock_timeout locked_body) on_error.
End save.

(** *** Several callers at once

    Each caller runs [save_debate_in_excel]; the statements of different
    callers interleave.  A caller is in one of these places: before the
    marker is acquired, holding it before line 73, holding it with the
    frame computed (before line 102), holding it with the frame saved, or
    returned.  The marker is held by at most one caller at a time (this
    is what [FileLock] provides); a caller waiting while another holds
    the marker may give up with [Timeout].  Each caller has its own
    surroundings [world i]: its write may fail, in which case the file
    is what the failed write left, the handler of the outer [try] runs
    and the caller returns [False]; and what it loads from a saved table
    is [reload (world i)] of the frame that was saved. *)

Record caller := {
  c_topic_id : pyval;
  c_claim_data : claim_arg;
  c_helper_type : pyval;
  c_chat_id : pyval;
  c_result : pyval;
  c_rounds : pyval
}.

(** The marker is free, the write succeeds, and a saved table loads back
    as it was saved. *)
Definition reliable : env :=
  {| lock_wait := Some 0; write := Written; reload := id |}.

Definition load_of (ev : env) (c : caller) : M DataFrame :=
  load_frame ev (c_topic_id c) (c_helper_type c) (c_chat_id c) (c_result c)
    (c_rounds c) (c_claim_data c).

Definition save_of (ev : env) (c : caller) : M bool :=
  save_debate_in_excel ev (c_topic_id c) (c_helper_type c) (c_chat_id c)
    (c_result c) (c_rounds c) (c_claim_data c).

Inductive pc :=
  | Waiting
  | Holding
  | Loaded (df : DataFrame)
  | Stored
  | Returned (value : bool).

Record system := {
  marker : option nat;
  shared : state;
  pcs : list pc
}.

Definition boot (d : option file_content) (n : nat) : system :=
  {| marker := None;
     shared := {| disk := d; log := [] |};
     pcs := replicate n Waiting |}.

Inductive step (callers : list caller) (world : nat → env) : system → system → Prop :=
  | step_acquire i σ :
      pcs σ !! i = Some Waiting →
      marker σ = None →
      step callers world σ
        {| marker := Some i; shared := shared σ; pcs := <[i:=Holding]> (pcs σ) |}
  | step_timeout i j σ s' :
      pcs σ !! i = Some Waiting →
      marker σ = Some j →
      on_error (Timeout lock_file) (shared σ) = (s', inr false) →
      step callers world σ
        {| marker := marker σ; shared := s'; pcs := <[i:=Returned false]> (pcs σ) |}
  | step_load i c σ s' df :
      pcs σ !! i = Some Holding →
      callers !! i = Some c →
      load_of (world i) c (shared σ) = (s', inr df) →
      step callers world σ
        {| marker := marker σ; shared := s'; pcs := <[i:=Loaded df]> (pcs σ) |}
  | step_load_raises i c σ s' e s'' :
      pcs σ !! i = Some Holding →
      callers !! i = Some c →
      load_of (world i) c (shared σ) = (s', inl e) →
      on_error e s' = (s'', inr false) →
      step callers world σ
        {| marker := None; shared := s''; pcs := <[i:=Returned false]> (pcs σ) |}
  | step_store i df σ s' :
      pcs σ !! i = Some (Loaded df) →
      store_frame (world i) df (shared σ) = (s', inr true) →
      step callers world σ
        {| marker := marker σ; shared := s'; pcs := <[i:=Stored]> (pcs σ) |}
  | step_store_raises i df σ s' e s'' :
      pcs σ !! i = Some (Loaded df) →
      store_frame (world i) df (shared σ) = (s', inl e) →
      on_error e s' = (s'', inr false) →
      step callers world σ
        {| marker := None; shared := s''; pcs := <[i:=Returned false]> (pcs σ) |}
  | step_release i σ :
      pcs σ !! i = Some Stored →
      step callers world σ
        {| marker := None; shared := shared σ; pcs := <[i:=Returned true]> (pcs σ) |}.

(** Runs of the system: the reflexive and transitive closure of [step]. *)
Definition reachable (callers : list caller) (world : nat → env)
    (d : option file_content) (σ : system) : Prop :=
  rtc (step callers world) (boot d (length callers)) σ.

Definition all_returned (σ : system) : Prop :=
  ∀ i p, pcs σ !! i = Some p → ∃ b, p = Returned b.

(** The rows the table file was written from, none when it is absent or
    unreadable. *)
Definition frame_of (d : option file_content) : DataFrame :=
  match d with
  | Some (Workbook df) => df
  | _ => []
  end.

(** The rows a call starts from (lines 87-99): what [pd.read_excel]
    loads, none when the file is absent or unreadable. *)
Definition reloaded (ev : env) (d : option file_content) : DataFrame :=
  match d with
  | Some (Workbook df) => reload ev df
  | _ => []
  end.

(** The table file after a call that saved [row]. *)
Definition append_row (ev : env) (d : option file_content) (row : Row) :
    option file_content :=
  Some (Workbook (reloaded ev d ++ [row])).

(** The row a caller appends. *)
Definition row_of (c : caller) : Row :=
  new_row (c_topic_id c)
    (match c_claim_data c with
     | Mapping d => default (VStr "Unknown claim") (dict_get "claim" d)
     | NotMapping _ => VNone
     end)
    (c_helper_type c) (c_result c) (c_rounds c) (c_chat_id c).

Definition row_at (callers : list caller) (i : nat) : Row :=
  from_option row_of [] (callers !! i).

(** The table file after the callers of [order] have saved, one after
    the other, starting from [d]. *)
Definition replay (callers : list caller) (world : nat → env)
    (d : option file_content) (order : list nat) : option file_content :=
  foldl (λ d i, append_row (world i) d (row_at callers i)) d order.

(** A caller is inside its read-modify-write cycle from the acquisition
    of the marker to its release. *)
Definition in_cycle (p : pc) : bool :=
  match p with
  | Holding | Loaded _ | Stored => true
  | Waiting | Returned _ => false
  end.

(** A caller has saved its row. *)
Definition has_saved (p : pc) : bool :=
  match p with
  | Stored | Returned true => true
  | _ => false
  end.

(** No write fails. *)
Definition writes_succeed (world : nat → env) : Prop :=
  ∀ i, write (world i) = Written.

(** Loading a saved table keeps the number of its rows. *)
Definition reload_keeps_length (world : nat → env) : Prop :=
  ∀ i df, length (reload (world i) df) = length df.

(** Loading a saved table returns the rows that were saved. *)
Definition reload_keeps_rows (world : nat → env) : Prop :=
  ∀ i df, reload (world i) df = df.

(** What holds in every state of a run: the holder of the marker is the
    caller inside its cycle, and a computed frame is what the caller
    loads from the current table followed by the caller's row; when no
    write fails, the table is the one obtained from the initial one by
    the saves, one after the other, of the callers that have saved, in
    some order without repetition. *)
Definition serialized (callers : list caller) (world : nat → env)
    (d : option file_content) (σ : system) : Prop :=
  length (pcs σ) = length callers
  ∧ (∀ i p, pcs σ !! i = Some p → in_cycle p = true → marker σ = Some i)
  ∧ (∀ i, marker σ = Some i → ∃ p, pcs σ !! i = Some p ∧ in_cycle p = true)
  ∧ (∀ i df, pcs σ !! i = Some (Loaded df) →
             df = reloaded (world i) (disk (shared σ)) ++ [row_at callers i])
  ∧ (writes_succeed world →
     ∃ order : list nat,
       NoDup order
       ∧ (∀ i, i ∈ order ↔ ∃ p, pcs σ !! i = Some p ∧ has_saved p = true)
       ∧ disk (shared σ) = replay callers world d order).

(** *** Inputs used in examples, and statements read on the code *)

Definition sample_caller : caller :=
  {| c_topic_id := VInt 3;
     c_claim_data := Mapping [("claim", VStr "Cats are liquid")];
     c_helper_type := VStr "vanilla";
     c_chat_id := VStr "a1";
     c_result := VInt 1;
     c_rounds := VInt 4 |}.

Definition other_caller : caller :=
  {| c_topic_id := VInt 5;
     c_claim_data := Mapping [];
     c_helper_type := VStr "fallacy";
     c_chat_id := VStr "b2";
     c_result := VInt 0;
     c_rounds := VInt 9 |}.

(** No table file yet; a table file that cannot be parsed. *)
Definition fresh : state := {| disk := None; log := [] |}.
Definition corrupt : state :=
  {| disk := Some (Unreadable (ValueError "File is not a zip file")); log := [] |}.

(** The marker is found free only after a wait of 31. *)
Definition contended : env :=
  {| lock_wait := Some 31; write := Written; reload := id |}.
(** The marker is free but the write is interrupted and leaves a file
    that cannot be parsed. *)
Definition torn_write : env :=
  {| lock_wait := Some 0;
     write := WriteFails (OSError "Input/output error")
                (Some (Unreadable (ValueError "File is not a zip file")));
     reload := id |}.

Definition third_caller : caller :=
  {| c_topic_id := VInt 8;
     c_claim_data := Mapping [("claim", VStr "Tea is soup")];
     c_helper_type := VStr "logical";
     c_chat_id := VStr "c3";
     c_result := VInt 1;
     c_rounds := VInt 2 |}.

(** The marker is free but the disk is full. *)
Definition disk_full : env :=
  {| lock_wait := Some 0;
     write := WriteFails (OSError "No space left on device") None;
     reload := id |}.

(** "A warning was logged between [s] and [s']". *)
Definition logs_warning (s s' : state) : Prop :=
  ∃ c, c ∈ drop (length (log s)) (log s') ∧ levelname c = WARNING.

(** "Every failure inside the call, a failed read of the table file
    included, makes the call return [False]", for the failed read. *)
Definition read_failure_reported (ev : env) (c : caller) (s : state) : Prop :=
  (∃ e, (read_excel ev s).2 = inl e) → (save_of ev c s).2 = inr false.

(** Where two callers end when the second starts after the first has
    returned. *)
Definition after_both : system :=
  {| marker := None;
     shared := (save_of reliable other_caller
                  (save_of reliable sample_caller fresh).1).1;
     pcs := [Returned true; Returned true] |}.

(** Appends made one after the other, each starting where the previous
    one ended. *)
Definition save_each (ev : env) (cs : list caller) (s : state) : state :=
  foldl (λ s c, (save_of ev c s).1) s cs.

(** The records a call adds to the log. *)
Definition logged (s s' : state) : list log_call :=
  drop (length (log s)) (log s').

(** "After all of the callers have returned the table has as many rows
    as there are callers". *)
Definition one_row_per_caller (callers : list caller) (world : nat → env)
    (d : option file_content) : Prop :=
  ∀ σ, reachable callers world d σ → all_returned σ →
       length (frame_of (disk (shared σ))) = length callers.

(** *** [create_debate_directory] *)

(** [str(x)] for the values the identifiers take. *)
Definition py_str (v : pyval) : string :=
  match v with
  | VNone => "None"
  | VBool true => "True"
  | VBool false => "False"
  | VInt z => pretty z
  | VStr s => s
  | VObject repr => repr
  end.

Definition starts_with_sep (s : string) : bool :=
  match s with
  | String c _ => bool_decide (String c "" = "/")
  | EmptyString => false
  end.

Fixpoint ends_with_sep (s : string) : bool :=
  match s with
  | EmptyString => false
  | String c EmptyString => bool_decide (String c "" = "/")
  | String _ s' => ends_with_sep s'
  end.

(** One round of the loop of [posixpath.join]: an absolute component
    replaces the path, otherwise it is appended, with a separator unless
    the path is empty or ends with one. *)
Definition join_step (path b : string) : string :=
  if starts_with_sep b then b
  else if bool_decide (path = "") || ends_with_sep path then path +:+ b
  else path +:+ "/" +:+ b.

(** [os.path.join(a, *p)] *)
Definition path_join (a : string) (p : list string) : string :=
  foldl join_step a p.

Definition default_debates_base_dir : string := "debates".

Section directories.
(** The file system: [os.path.exists] and [os.makedirs], which changes
    the file system and may raise. *)
Variable FS : Type.
Variable path_exists_in : FS → string → bool.
Variable makedirs : FS → string → FS * (exn + ()).

(** [if not os.path.exists(p): os.makedirs(p)] *)
Definition ensure_dir (fs : FS) (p : string) : FS * (exn + ()) :=
  if path_exists_in fs p then (fs, inr ()) else makedirs fs p.

(** [helper_type] is a [str], as the docstring says. *)
Definition create_debate_directory (fs : FS) (topic_id chat_id : pyval)
    (helper_type debates_base_dir : string) : FS * (exn + string) :=
  let debates_dir := debates_base_dir in
  match ensure_dir fs debates_dir with
  | (fs, inl e) => (fs, inl e)
  | (fs, inr _) =>
      let topic_dir := path_join debates_dir [py_str topic_id] in
      match ensure_dir fs topic_dir with
      | (fs, inl e) => (fs, inl e)
      | (fs, inr _) =>
          let helper_dir := path_join topic_dir [helper_type] in
          match ensure_dir fs helper_dir with
          | (fs, inl e) => (fs, inl e)
          | (fs, inr _) =>
              let chat_dir := path_join topic_dir [helper_type; py_str chat_id] in
              match ensure_dir fs chat_dir with
              | (fs, inl e) => (fs, inl e)
              | (fs, inr _) => (fs, inr chat_dir)
              end
          end
      end
  end.
End directories.

(** What the code relies on from the file system: a directory made
    exists afterwards, and making a directory, successfully or not,
    removes nothing. *)
Definition fs_laws {FS : Type} (path_exists_in : FS → string → bool)
    (makedirs : FS → string → FS * (exn + ())) : Prop :=
  (∀ fs p fs', makedirs fs p = (fs', inr ()) → path_exists_in fs' p = true)
  ∧ (∀ fs p fs' r q, makedirs fs p = (fs', r) →
       path_exists_in fs q = true → path_exists_in fs' q = true).

(** A file system for the examples: the paths made so far. *)
Definition listed_exists (fs : list string) (p : string) : bool :=
  bool_decide (p ∈ fs).
Definition listed_makedirs (fs : list string) (p : string) : list string * (exn + ()) :=
  if bool_decide (p ∈ fs) then (fs, inl (OSError "File exists"))
  else if bool_decide (p = "") then (fs, inl (OSError "No such file or directory"))
  else (p :: fs, inr ()).

End Utils.


(** ** [utils/log_main.py]: the formatter and the filters *)

Module LogMain.

(** A [logging.LogRecord] is its attribute table: [hasattr] and [getattr]
    are lookups in it.  The fields given through [extra=] are attributes
    like the standard ones. *)
Abbreviation LogRecord := (gmap string pyval).

Definition hasattr (record : LogRecord) (name : string) : bool :=
  bool_decide (is_Some (record !! name)).

Definition getattr (record : LogRecord) (name : string) : exn + pyval :=
  match record !! name with
  | Some v => inr v
  | None => inl (AttributeError ("'LogRecord' object has no attribute '" +:+ name +:+ "'"))
  end.

(** [getattr(record, name, None)] *)
Definition getattr_or_none (record : LogRecord) (name : string) : pyval :=
  default VNone (record !! name).

(** [MyJSONFormatter.__init__]:
    [fmt_keys if fmt_keys is not None else {}]. *)
Definition init_fmt_keys (fmt_keys : option (odict string)) : odict string :=
  default [] fmt_keys.

(** [format] serialises the dictionary of [_prepare_log_dict] with
    [json.dumps]; the serialisation is not modelled. *)

Section formatter.
(** [record.getMessage()] and the ISO-8601 UTC rendering of
    [record.created], both of the standard library, for records on
    which the two calls return; [prepare_log_dict] below is the function
    with the two calls as calls that may raise. *)
Variable getMessage : LogRecord → string.
Variable isoformat_utc : LogRecord → string.

(** The [fmt_keys] of the formatter: output key to source name. *)
Variable fmt_keys : odict string.

Definition always_include (record : LogRecord) : odict pyval :=
  [("message", VStr (getMessage record));
   ("timestamp", VStr (isoformat_utc record))].

(** Lines 27-31: the loop over [fmt_keys.items()], on the pair
    ([always_include], [message]). *)
Fixpoint declared_keys (record : LogRecord) (items : odict string)
    (always message : odict pyval) : exn + odict pyval * odict pyval :=
  match items with
  | [] => inr (always, message)
  | (key, val) :: items' =>
      match dict_get val always with
      | Some v =>
          declared_keys record items' (dict_del val always) (dict_set key v message)
      | None =>
          match getattr record val with
          | inr v => declared_keys record items' always (dict_set key v message)
          | inl e => inl e
          end
      end
  end.

Definition extra_attrs : list string :=
  ["msg_type"; "speaker"; "receiver"; "sender"; "round"; "topic"].

(** Lines 34-36: the loop over the extra attributes. *)
Fixpoint add_extras (record : LogRecord) (attrs : list string)
    (message : odict pyval) : odict pyval :=
  match attrs with
  | [] => message
  | attr :: attrs' =>
      if hasattr record attr && negb (dict_has attr message) then
        add_extras record attrs'
          (dict_set attr (getattr_or_none record attr) message)
      else add_extras record attrs' message
  end.

Definition _prepare_log_dict (record : LogRecord) : exn + odict pyval :=
  match declared_keys record fmt_keys (always_include record) [] with
  | inl e => inl e
  | inr (always, message) =>
      inr (dict_update (add_extras record extra_attrs message) always)
  end.
End formatter.

(** [_prepare_log_dict] with the calls of lines 22 and 23 as they are in
    general: [record.getMessage()] raises when [msg % args] does, and
    the rendering of [record.created] raises when it is not a time that
    can be represented.  The dictionary display evaluates the two in
    this order before anything else, and an exception of either leaves
    the function. *)
Definition prepare_log_dict (getMessage isoformat_utc : LogRecord → exn + string)
    (fmt_keys : odict string) (record : LogRecord) : exn + odict pyval :=
  match getMessage record with
  | inl e => inl e
  | inr m =>
      match isoformat_utc record with
      | inl e => inl e
      | inr t => _prepare_log_dict (λ _, m) (λ _, t) fmt_keys record
      end
  end.

(** The two filter classes. *)
Inductive log_filter := MainDebateFilter | PersuadorHelperFilter.

Definition tag_of (f : log_filter) : string :=
  match f with
  | MainDebateFilter => "main debate"
  | PersuadorHelperFilter => "persuador_helper"
  end.

(** [filter(self, record)]:
    [getattr(record, "msg_type", None) == "<tag>"]. *)
Definition filter_record (f : log_filter) (record : LogRecord) : bool :=
  bool_decide (getattr_or_none record "msg_type" = VStr (tag_of f)).

(** A channel is a handler with the filters attached to it; as in
    [logging.Handler.handle], a record is emitted on the handler when all
    its filters accept it.  The level threshold of a handler belongs to
    the logging configuration and is not part of this model. *)
Record channel := {
  channel_name : string;
  filters : list log_filter
}.

Definition accepts (c : channel) (record : LogRecord) : bool :=
  forallb (λ f, filter_record f record) (filters c).

Definition deliveries (channels : list channel) (record : LogRecord) : list channel :=
  filter (λ c, accepts c record = true) channels.

(** *** Statements read on the code, and inputs used in examples *)

(** The names of the computed values, the keys of [always_include]. *)
Definition reserved : list string := ["message"; "timestamp"].

(** The sources named by a field-order specification, in order. *)
Definition sources (fmt_keys : odict string) : list string := fmt_keys.*2.

(** Every source of the field-order specification can be resolved: it is
    a computed value that no earlier entry has consumed, or an attribute
    of the record. *)
Definition sources_resolve (fmt_keys : odict string) (record : LogRecord) : Prop :=
  ∀ i key val, fmt_keys !! i = Some (key, val) →
    (val ∈ reserved ∧ val ∉ sources (take i fmt_keys)) ∨ is_Some (record !! val).

(** The three stages of the envelope's keys. *)
Definition stage_declared (fmt_keys : odict string) : list string := keys fmt_keys.

Definition stage_extras (fmt_keys : odict string) (record : LogRecord) : list string :=
  filter (λ a, is_Some (record !! a) ∧ a ∉ keys fmt_keys) extra_attrs.

Definition stage_computed (fmt_keys : odict string) : list string :=
  filter (λ r, (r ∉ sources fmt_keys) ∧ (r ∉ keys fmt_keys)) reserved.

(** "The formatter emits an envelope whose keys are the three stages". *)
Definition emits_three_stages (getMessage isoformat_utc : LogRecord → string)
    (fmt_keys : odict string) (record : LogRecord) : Prop :=
  ∃ message,
    _prepare_log_dict getMessage isoformat_utc fmt_keys record = inr message
    ∧ keys message =
      stage_declared fmt_keys ++ stage_extras fmt_keys record ++ stage_computed fmt_keys.

(** "The envelope has the keys [message] and [timestamp], and of the six
    extra attributes exactly those set on the record". *)
Definition has_minimum_keys (getMessage isoformat_utc : LogRecord → string)
    (fmt_keys : odict string) (record : LogRecord) : Prop :=
  ∃ message,
    _prepare_log_dict getMessage isoformat_utc fmt_keys record = inr message
    ∧ "message" ∈ keys message
    ∧ "timestamp" ∈ keys message
    ∧ ∀ a, a ∈ extra_attrs → (a ∈ keys message ↔ is_Some (record !! a)).

(** A rendering of the message and of the time for the examples. *)
Definition sample_getMessage (record : LogRecord) : string :=
  match record !! "msg" with
  | Some (VStr m) => m
  | _ => ""
  end.
Definition sample_isoformat (record : LogRecord) : string :=
  "2025-01-01T00:00:00+00:00".

(** [getMessage] on a message without conversion specifiers:
    [msg % args] raises when arguments were given. *)
Definition plain_getMessage (record : LogRecord) : exn + string :=
  match record !! "args" with
  | Some (VObject _) =>
      inl (TypeError "not all arguments converted during string formatting")
  | _ => inr (sample_getMessage record)
  end.

(** An event of the main debate, and an event with nothing set. *)
Definition debate_event : LogRecord :=
  <["msg" := VStr "opening"]>
    (<["msg_type" := VStr "main debate"]>
       (<["speaker" := VStr "pro"]> (<["round" := VInt 3]> ∅))).
Definition bare_event : LogRecord := <["msg" := VStr "hello"]> ∅.
(** An event logged as [logger.info("hello", "x")]. *)
Definition stray_argument_event : LogRecord :=
  <["args" := VObject "('x',)"]> bare_event.

(** The record [Logger.makeRecord] builds for a call of the result
    store's logger: the fields of [extra=] become attributes of the
    record with the standard attributes [base]. *)
Definition record_of_call (base : LogRecord) (c : Utils.log_call) : LogRecord :=
  foldl (λ r kv, <[kv.1 := kv.2]> r) base (Utils.extra c).

Definition main_channel : channel :=
  {| channel_name := "main_debate_file"; filters := [MainDebateFilter] |}.
Definition helper_channel : channel :=
  {| channel_name := "persuador_helper_file"; filters := [PersuadorHelperFilter] |}.

End LogMain.


(** * Properties *)

(** ** The batch runner *)

Module RunsSpec.
Import MultipleRuns.

Section tally.
Variable executable : string.
Variable spawn : spawner.
Variable args : Args.

Lemma execute_runs_counts (runs : list run) (t : tally) :
  let t' := execute_runs executable spawn args runs t in
  (successful_runs t' + failed_runs t' =
     successful_runs t + failed_runs t + length runs)%nat
  ∧ calls t' = (calls t + length runs)%nat.
Proof.
  revert t. induction runs as [|[helper_type claim_index] runs IH]; intros t; simpl.
  - lia.
  - destruct (run_single_debate _ _ _ _ _ _ _);
      match goal with |- context [execute_runs _ _ _ _ ?u] =>
        destruct (IH u) as [IHc IHn] end;
      simpl in *; lia.
Qed.

Lemma execute_runs_issued (runs : list run) (t : tally) :
  issued (execute_runs executable spawn args runs t) =
  issued t ++
  map (λ r : run, command executable r.1 r.2 (settings_path args) (models_path args)) runs.
Proof.
  revert t. induction runs as [|[helper_type claim_index] runs IH]; intros t; simpl.
  - by rewrite app_nil_r.
  - destruct (run_single_debate _ _ _ _ _ _ _); rewrite IH; simpl;
      by rewrite <- app_assoc.
Qed.

Lemma append_claims_spec (helper_type : string) (claims : list Z)
    (runs : list run) (total_runs : nat) :
  append_claims helper_type claims runs total_runs =
  (runs ++ map (λ i, (helper_type, Some i)) claims,
   (total_runs + length claims)%nat).
Proof.
  revert runs total_runs.
  induction claims as [|i claims IH]; intros runs total_runs; simpl.
  - by rewrite app_nil_r, Nat.add_0_r.
  - rewrite IH, <- app_assoc. simpl. f_equal. lia.
Qed.

Lemma prepare_runs_total (hts : list string) (runs : list run) (total_runs : nat) :
  total_runs = length runs →
  (prepare_runs args hts runs total_runs).2 =
  length (prepare_runs args hts runs total_runs).1.
Proof.
  revert runs total_runs.
  induction hts as [|helper_type hts IH]; intros runs total_runs Hlen; simpl.
  - done.
  - destruct (sequential args && truthy (claim_indexes args)).
    + rewrite append_claims_spec. apply IH.
      rewrite length_app, length_map. lia.
    + apply IH. rewrite length_app. simpl. lia.
Qed.

(** Outside the sequential branch every helper type gets one run, with
    the sub-index of line 129. *)
Lemma prepare_runs_one_each (hts : list string) (runs : list run) (total_runs : nat) :
  sequential args && truthy (claim_indexes args) = false →
  prepare_runs args hts runs total_runs =
  (runs ++ map (λ h, (h, single_claim_index (claim_indexes args))) hts,
   (total_runs + length hts)%nat).
Proof.
  intros Hseq. revert runs total_runs.
  induction hts as [|helper_type hts IH]; intros runs total_runs; simpl.
  - by rewrite app_nil_r, Nat.add_0_r.
  - rewrite Hseq, IH, <- app_assoc. simpl. f_equal. lia.
Qed.
End tally.

Lemma single_claim_index_iff (claim_indexes : option (list Z)) (i : Z) :
  single_claim_index claim_indexes = Some i ↔ claim_indexes = Some [i].
Proof.
  unfold single_claim_index.
  destruct claim_indexes as [[|a [|b l]]|]; simpl; naive_solver.
Qed.

(** [C1] Whatever the plan and whatever each invocation of the external
    boundary does, the execution loop counts every planned entry once, as
    a success or as a failure: the two counters add up to the length of
    the plan, the commands issued are those of the entries, one each and
    in plan order, and in the summary of [main] the counters add up to
    [total_runs], which is the length of the plan. *)
Theorem execute_plan_tally (executable : string) (spawn : spawner) (args : Args) :
  (∀ runs : list run,
     let t := execute_runs executable spawn args runs start in
     (successful_runs t + failed_runs t)%nat = length runs
     ∧ issued t =
       map (λ r : run, command executable r.1 r.2
                         (settings_path args) (models_path args)) runs)
  ∧ (∀ fs : files,
       match main executable spawn args fs with
       | Summary runs total_runs t _ =>
           (successful_runs t + failed_runs t)%nat = total_runs
           ∧ total_runs = length runs
       | _ => True
       end).
Proof.
  split.
  - intros runs t. subst t. split.
    + destruct (execute_runs_counts executable spawn args runs start) as [H _].
      simpl in H. lia.
    + by rewrite execute_runs_issued.
  - intros fs. unfold main.
    destruct (list_helpers args).
    { by destruct (get_available_helper_types _ _). }
    destruct (requested args fs) as [e|hts]; [done|].
    unfold plan. destruct hts as [|h hts]; [done|].
    destruct (get_available_helper_types _ _) as [e|available]; [done|].
    destruct (filter _ (h :: hts)); [|done].
    pose proof (prepare_runs_total args (h :: hts) [] 0%nat eq_refl) as Htot.
    destruct (prepare_runs args (h :: hts) [] 0) as [runs total_runs].
    simpl in Htot. subst total_runs.
    destruct (execute_runs_counts executable spawn args runs start) as [H _].
    simpl in H. split; [lia|done].
Qed.

(** The boundary of the examples: the second child process fails. *)
Example tally_mixed :
  let t := execute_runs "python" (λ n _, if decide (n = 1%nat) then Exited 2 "boom" else Exited 0 "")
             (request None None false)
             [("vanilla", Some 1); ("vanilla", Some 2); ("fallacy", None)] start in
  (successful_runs t, failed_runs t) = (2%nat, 1%nat)
  ∧ issued t =
    [["python"; "main.py"; "--helper_type"; "vanilla"; "--claim_index"; "1"];
     ["python"; "main.py"; "--helper_type"; "vanilla"; "--claim_index"; "2"];
     ["python"; "main.py"; "--helper_type"; "fallacy"]].
Proof. split; reflexivity. Qed.

Example tally_all_fail :
  main "python" (all_exit 1) (request (Some ["vanilla"; "fallacy"]) None false)
    (settings_with ["vanilla"; "fallacy"]) =
  Summary [("vanilla", None); ("fallacy", None)] 2
    {| successful_runs := 0; failed_runs := 2; calls := 2;
       issued := [["python"; "main.py"; "--helper_type"; "vanilla"];
                  ["python"; "main.py"; "--helper_type"; "fallacy"]] |} 1.
Proof. reflexivity. Qed.

(** Sequential mode: one run per sub-index, in the order given. *)
Example plan_sequential :
  plan (request (Some ["vanilla"]) (Some [1; 2]) true)
    (settings_with ["vanilla"; "fallacy"]) ["vanilla"] =
  inr ([("vanilla", Some 1); ("vanilla", Some 2)], 2%nat).
Proof. reflexivity. Qed.

Lemma filter_unknown_nil (known hts : list string) :
  hts ⊆ known → filter (λ h, h ∉ known) hts = [].
Proof.
  intros Hsub. destruct (filter _ hts) as [|h l] eqn:Hf; [done|].
  assert (h ∈ filter (λ h, h ∉ known) hts) as Hin by (rewrite Hf; left).
  apply list_elem_of_filter in Hin as [Hout Hin]. destruct (Hout (Hsub h Hin)).
Qed.

(** [C2], amended.  Without [--sequential]: the loop of lines 121-131
    gives every helper type exactly one run, in order, and each run
    carries the sub-index [i] exactly when the requested sub-indices are
    the single [i], and no sub-index otherwise.  On [main], when the
    helper types to run (those requested or, when none is requested, all
    known ones) are all known: if there is at least one, the plan of the
    summary is that list of runs; if there is none, [main] stops at the
    guard of line 105 without a plan. *)
Theorem plan_one_run_per_helper (executable : string) (spawn : spawner)
    (args : Args) (fs : files) (known hts : list string) :
  sequential args = false →
  prepare_runs args hts [] 0%nat =
    (map (λ h, (h, single_claim_index (claim_indexes args))) hts, length hts)
  ∧ (∀ i, single_claim_index (claim_indexes args) = Some i
          ↔ claim_indexes args = Some [i])
  ∧ (list_helpers args = false →
     get_available_helper_types fs (settings_path args) = inr known →
     requested args fs = inr hts →
     hts ⊆ known →
     (hts ≠ [] →
        ∃ t exit_code,
          main executable spawn args fs =
          Summary (map (λ h, (h, single_claim_index (claim_indexes args))) hts)
            (length hts) t exit_code)
     ∧ (hts = [] → main executable spawn args fs = NoHelperTypes)
     ∧ hts = (if truthy (helper_types args)
              then default [] (helper_types args) else known)).
Proof.
  intros Hseq.
  assert (prepare_runs args hts [] 0%nat =
          (map (λ h, (h, single_claim_index (claim_indexes args))) hts,
           length hts)) as Hloop.
  { by rewrite prepare_runs_one_each by (by rewrite Hseq). }
  split; [exact Hloop|]. split; [apply single_claim_index_iff|].
  intros Hlist Hknown Hreq Hsub. split_and!.
  - intros Hne. unfold main. rewrite Hlist, Hreq. unfold plan.
    destruct hts as [|h hts]; [done|].
    rewrite Hknown, (filter_unknown_nil known (h :: hts) Hsub), Hloop. eauto.
  - intros ->. unfold main. by rewrite Hlist, Hreq.
  - unfold requested in Hreq. destruct (truthy (helper_types args)); congruence.
Qed.

Lemma plan_one_run_per_helper_witness :
  ∃ t exit_code,
    main "python" (all_exit 0)
      (request (Some ["vanilla"; "fallacy"]) (Some [7]) false)
      (settings_with ["no_helper"; "vanilla"; "fallacy"]) =
    Summary [("vanilla", Some 7); ("fallacy", Some 7)] 2 t exit_code.
Proof.
  refine (proj1 (proj2 (proj2 (plan_one_run_per_helper "python" (all_exit 0)
            (request (Some ["vanilla"; "fallacy"]) (Some [7]) false)
            (settings_with ["no_helper"; "vanilla"; "fallacy"])
            ["no_helper"; "vanilla"; "fallacy"] ["vanilla"; "fallacy"]
            eq_refl)) eq_refl eq_refl eq_refl _) _).
  - intros h Hh. apply list_elem_of_In in Hh. apply list_elem_of_In.
    simpl in *. tauto.
  - discriminate.
Defined.

(** [C2] as stated fails when no variant is requested and none is known:
    the empty set of variants is a subset of the known ones, yet [main]
    does not plan zero runs, it stops with "No helper types found or
    specified!". *)
Lemma plan_nothing_to_run :
  main "python" (all_exit 0) (request None None false) (settings_with []) = NoHelperTypes
  ∧ ¬ plans_one_entry_each "python" (all_exit 0) (request None None false)
        (settings_with []) [].
Proof.
  split; [reflexivity|].
  intros (runs & total_runs & t & exit_code & H & _). discriminate H.
Qed.

(** [C3] When some requested helper type is not a known one, no command
    is handed to the external boundary, and (without [--list_helpers])
    [main] ends on the list of the requested helper types that are
    unknown, which is not empty and holds exactly those, without a plan. *)
Theorem unknown_variant_rejected (executable : string) (spawn : spawner)
    (args : Args) (fs : files) (known hts : list string) :
  helper_types args = Some hts →
  get_available_helper_types fs (settings_path args) = inr known →
  (∃ h, h ∈ hts ∧ h ∉ known) →
  invocations (main executable spawn args fs) = []
  ∧ (list_helpers args = false →
     ∃ invalid,
       main executable spawn args fs = InvalidHelpers invalid known
       ∧ plan args fs hts = inl (InvalidHelpers invalid known)
       ∧ invalid ≠ []
       ∧ ∀ h, h ∈ invalid ↔ h ∈ hts ∧ h ∉ known).
Proof.
  intros Hreq Hknown (h0 & Hin & Hout).
  assert (truthy (helper_types args) = true) as Htruthy.
  { rewrite Hreq. destruct hts; [by apply elem_of_nil in Hin|done]. }
  assert (h0 ∈ filter (λ h, h ∉ known) hts) as Hbad
    by (by apply list_elem_of_filter).
  assert (plan args fs hts =
          inl (InvalidHelpers (filter (λ h, h ∉ known) hts) known)) as Hplan.
  { unfold plan. destruct hts as [|h hts]; [by apply elem_of_nil in Hin|].
    rewrite Hknown. destruct (filter _ (h :: hts)); [by apply elem_of_nil in Hbad|done]. }
  assert (list_helpers args = false →
          main executable spawn args fs =
          InvalidHelpers (filter (λ h, h ∉ known) hts) known) as Hmain.
  { intros Hlist. unfold main, requested.
    rewrite Hlist, Htruthy, Hreq. simpl. by rewrite Hplan. }
  split.
  - destruct (list_helpers args) eqn:Hlist.
    + unfold main. rewrite Hlist, Hknown. done.
    + by rewrite Hmain.
  - intros Hlist. eexists. split; [by apply Hmain|]. split; [done|]. split.
    + intros Hnil. rewrite Hnil in Hbad. by apply elem_of_nil in Hbad.
    + intros h. rewrite list_elem_of_filter. tauto.
Qed.

Lemma unknown_variant_rejected_witness :
  invocations (main "python" (all_exit 0)
                 (request (Some ["vanilla"; "socratic"]) None false)
                 (settings_with ["no_helper"; "vanilla"])) = []
  ∧ main "python" (all_exit 0)
      (request (Some ["vanilla"; "socratic"]) None false)
      (settings_with ["no_helper"; "vanilla"]) =
    InvalidHelpers ["socratic"] ["no_helper"; "vanilla"].
Proof.
  destruct (unknown_variant_rejected "python" (all_exit 0)
              (request (Some ["vanilla"; "socratic"]) None false)
              (settings_with ["no_helper"; "vanilla"])
              ["no_helper"; "vanilla"] ["vanilla"; "socratic"]
              eq_refl eq_refl) as [Hnone Hend].
  - exists "socratic". split.
    + apply list_elem_of_In. simpl. tauto.
    + intros Hin%list_elem_of_In. simpl in Hin.
      destruct Hin as [H|[H|[]]]; discriminate H.
  - split; [exact Hnone|reflexivity].
Defined.

End RunsSpec.


(** ** The result store, one caller *)

Module StoreSpec.
Import Utils.

Section one_call.
Variable ev : env.
Variables topic_id helper_type chat_id result rounds : pyval.
Variable claim_data : claim_arg.

Abbreviation save :=
  (save_debate_in_excel ev topic_id helper_type chat_id result rounds claim_data).
Abbreviation body :=
  (locked_body ev topic_id helper_type chat_id result rounds claim_data).

Lemma with_lock_acquired {A} (m : M A) (w : Z) :
  lock_wait ev = Some w → w ≤ lock_timeout → with_lock ev lock_timeout m = m.
Proof. intros Hw Hle. unfold with_lock. rewrite Hw. by rewrite decide_True. Qed.

Lemma with_lock_timed_out {A} (m : M A) :
  (∀ w, lock_wait ev = Some w → lock_timeout < w) →
  with_lock ev lock_timeout m = raise (Timeout lock_file).
Proof.
  intros Hw. unfold with_lock. destruct (lock_wait ev) as [w|]; [|done].
  rewrite decide_False; [done|]. specialize (Hw w eq_refl). lia.
Qed.

(** [C4] The marker is waited for at most 30: when it does not become
    free within 30 the lock-timeout error reaches the caller as the
    function's failure value [False], the table file is as it was (not
    created, no row added) and the only trace is the logged [Timeout];
    when it becomes free within 30 the body runs. *)
Theorem lock_timeout_no_write (s : state) :
  lock_timeout = 30
  ∧ ((∀ w, lock_wait ev = Some w → 30 < w) →
     save s =
     ({| disk := disk s;
         log := log s ++
           [{| levelname := ERROR;
               msg := "Error saving debate to Excel: The file lock 'all_debates_summary.xlsx.lock' could not be acquired.";
               extra := [("msg_type", VStr "system")] |}] |},
      inr false))
  ∧ (∀ w, lock_wait ev = Some w → w ≤ 30 →
     save s = try_except body (on_error) s).
Proof.
  split; [done|]. split.
  - intros Hw. unfold save_debate_in_excel.
    rewrite with_lock_timed_out by done. reflexivity.
  - intros w Hw Hle. unfold save_debate_in_excel.
    by rewrite (with_lock_acquired _ w).
Qed.

(** The frame the body saves: the rows loaded, if any, and the new row. *)
Lemma load_frame_mapping (d : odict pyval) (s : state) :
  claim_data = Mapping d →
  let row := new_row topic_id (default (VStr "Unknown claim") (dict_get "claim" d))
               helper_type result rounds chat_id in
  load_frame ev topic_id helper_type chat_id result rounds claim_data s =
  match disk s with
  | None => (s, inr [row])
  | Some (Workbook df) => (s, inr (reload ev df ++ [row]))
  | Some (Unreadable e) =>
      ({| disk := disk s;
          log := log s ++
            [{| levelname := ERROR;
                msg := "Error reading existing Excel file: " +:+ str_exn e;
                extra := system_extra |}] |},
       inr [row])
  end.
Proof.
  intros ->. unfold load_frame, bind, get_claim, ret, path_exists. simpl.
  destruct s as [[[df|e]|] lg]; reflexivity.
Qed.

(** [C5], amended.  When the table file exists and cannot be read, the
    marker is acquired, [claim_data] is a mapping and the write succeeds:
    the call logs one message at level ERROR ("Error reading existing
    Excel file: ..."), saves a table whose only row is the new one, logs
    the success at level INFO and returns [True]. *)
Theorem unreadable_table_recovery (s : state) (e : exn) (d : odict pyval) (w : Z) :
  disk s = Some (Unreadable e) →
  lock_wait ev = Some w → w ≤ 30 →
  claim_data = Mapping d →
  write ev = Written →
  save s =
  ({| disk := Some (Workbook
        [new_row topic_id (default (VStr "Unknown claim") (dict_get "claim" d))
           helper_type result rounds chat_id]);
      log := log s ++
        [{| levelname := ERROR;
            msg := "Error reading existing Excel file: " +:+ str_exn e;
            extra := [("msg_type", VStr "system")] |};
         {| levelname := INFO;
            msg := "Successfully updated debate summary in all_debates_summary.xlsx";
            extra := [("msg_type", VStr "system")] |}] |},
   inr true).
Proof.
  intros Hdisk Hw Hle Hmap Hwrite. unfold save_debate_in_excel.
  rewrite (with_lock_acquired _ w) by done.
  unfold try_except, locked_body, bind at 1.
  rewrite (load_frame_mapping d s Hmap), Hdisk.
  unfold store_frame, bind, to_excel, logger_info, ret. rewrite Hwrite. simpl.
  by rewrite <- app_assoc.
Qed.

Lemma save_timed_out (s : state) :
  (∀ w, lock_wait ev = Some w → lock_timeout < w) → (save s).2 = inr false.
Proof.
  intros Hw. unfold save_debate_in_excel.
  by rewrite with_lock_timed_out.
Qed.

Lemma save_without_get (s : state) (v : pyval) :
  claim_data = NotMapping v → (save s).2 = inr false.
Proof.
  intros Hcd. unfold save_debate_in_excel, with_lock.
  destruct (lock_wait ev) as [w|]; [|done].
  destruct (decide _); [|done].
  unfold try_except, locked_body, load_frame, bind, get_claim.
  by rewrite Hcd.
Qed.

Lemma save_write_fails (s : state) (d : odict pyval) (e : exn)
    (left_behind : option file_content) :
  claim_data = Mapping d → write ev = WriteFails e left_behind →
  (save s).2 = inr false.
Proof.
  intros Hcd Hwrite. unfold save_debate_in_excel, with_lock.
  destruct (lock_wait ev) as [w|]; [|done].
  destruct (decide _); [|done].
  unfold try_except, locked_body, bind at 1.
  rewrite (load_frame_mapping d s Hcd).
  unfold store_frame, bind, to_excel. rewrite Hwrite.
  by destruct s as [[[df|e']|] lg].
Qed.

Lemma save_written (s : state) (d : odict pyval) (w : Z) :
  lock_wait ev = Some w → w ≤ lock_timeout →
  claim_data = Mapping d → write ev = Written →
  ∃ lg,
    save s =
    ({| disk := append_row ev (disk s)
                  (new_row topic_id (default (VStr "Unknown claim") (dict_get "claim" d))
                     helper_type result rounds chat_id);
        log := lg |},
     inr true).
Proof.
  intros Hw Hle Hcd Hwrite. unfold save_debate_in_excel.
  rewrite (with_lock_acquired _ w) by done.
  unfold try_except, locked_body, bind at 1.
  rewrite (load_frame_mapping d s Hcd).
  unfold store_frame, bind, to_excel, logger_info, ret. rewrite Hwrite.
  destruct s as [[[df|e']|] lg]; simpl; eauto.
Qed.

(** [C10], amended.  The call always returns a boolean, it never raises:
    [True] exactly when the marker was acquired within 30, [claim_data]
    has [.get] and the write succeeded, [False] otherwise (lock timeout,
    write error, no [.get]).  Whether the existing table could be read
    plays no part: a failed read is caught inside, logged, and the table
    restarted.  A mapping without the key [claim], when saved, is saved
    with the claim ["Unknown claim"]. *)
Theorem save_returns_boolean (s : state) :
  (∃ b : bool,
     (save s).2 = inr b
     ∧ (b = true ↔
        (∃ w, lock_wait ev = Some w ∧ w ≤ 30)
        ∧ (∃ d, claim_data = Mapping d)
        ∧ write ev = Written))
  ∧ (∀ d, claim_data = Mapping d → dict_get "claim" d = None →
          (save s).2 = inr true →
          ∃ df, disk (save s).1 =
                Some (Workbook
                  (df ++ [new_row topic_id (VStr "Unknown claim")
                            helper_type result rounds chat_id]))).
Proof.
  destruct (lock_wait ev) as [w|] eqn:Hw; cycle 1.
  { rewrite save_timed_out by (intros ? ?; congruence). split; [exists false|done].
    split; [done|]. split; [done|]. by intros [[? [? ?]] _]. }
  destruct (decide (w ≤ lock_timeout)) as [Hle|Hgt]; cycle 1.
  { rewrite save_timed_out by (intros ? ?; simplify_eq; lia). split; [exists false|done].
    split; [done|]. split; [done|]. intros [[w' [[= ->] Hle]] _]. by destruct Hgt. }
  assert ((∃ d, claim_data = Mapping d) ∨ (∃ v, claim_data = NotMapping v))
    as [[d Hcd]|[v Hcd]] by (destruct claim_data; eauto); cycle 1.
  { rewrite (save_without_get s v) by done. split; [exists false|done].
    split; [done|]. split; [done|]. intros (_ & [d Hd] & _). congruence. }
  destruct (write ev) as [|e left_behind] eqn:Hwrite.
  - destruct (save_written s d w Hw Hle Hcd Hwrite) as [lg ->]. simpl. split.
    + exists true. split; [done|]. split; [|done]. intros _. eauto 10.
    + intros d' Hd' Hnone _. assert (d' = d) as -> by congruence.
      rewrite Hnone. eauto.
  - rewrite (save_write_fails s d e left_behind Hcd Hwrite).
    split; [exists false|done].
    split; [done|]. split; [done|]. by intros (_ & _ & [=]).
Qed.
End one_call.

Lemma unreadable_table_recovery_witness :
  save_of reliable sample_caller corrupt =
  ({| disk := Some (Workbook
        [[("topic_id", VInt 3); ("claim", VStr "Cats are liquid");
          ("helper_type", VStr "vanilla"); ("result", VInt 1);
          ("rounds", VInt 4); ("chat_id", VStr "a1")]]);
      log :=
        [{| levelname := ERROR;
            msg := "Error reading existing Excel file: File is not a zip file";
            extra := [("msg_type", VStr "system")] |};
         {| levelname := INFO;
            msg := "Successfully updated debate summary in all_debates_summary.xlsx";
            extra := [("msg_type", VStr "system")] |}] |},
   inr true).
Proof.
  refine (unreadable_table_recovery reliable (VInt 3) (VStr "vanilla")
            (VStr "a1") (VInt 1) (VInt 4)
            (Mapping [("claim", VStr "Cats are liquid")]) corrupt
            (ValueError "File is not a zip file")
            [("claim", VStr "Cats are liquid")] 0
            eq_refl eq_refl _ eq_refl eq_refl).
  lia.
Defined.

(** [C5] as stated fails on the level of the message: after a call on an
    unreadable table file no call of the logger has the level WARNING
    (the message is logged with [logger.error]). *)
Lemma unreadable_table_no_warning :
  ¬ logs_warning corrupt (save_of reliable sample_caller corrupt).1.
Proof.
  intros (c & Hin & Hlevel). vm_compute in Hin.
  repeat (apply elem_of_cons in Hin as [->|Hin]; [discriminate Hlevel|]).
  by apply elem_of_nil in Hin.
Qed.

Lemma save_returns_boolean_witness :
  ∃ df, disk (save_of reliable other_caller fresh).1 =
        Some (Workbook
          (df ++ [[("topic_id", VInt 5); ("claim", VStr "Unknown claim");
                   ("helper_type", VStr "fallacy"); ("result", VInt 0);
                   ("rounds", VInt 9); ("chat_id", VStr "b2")]])).
Proof.
  exact (proj2 (save_returns_boolean reliable (VInt 5) (VStr "fallacy")
           (VStr "b2") (VInt 0) (VInt 9) (Mapping []) fresh)
           [] eq_refl eq_refl eq_refl).
Defined.

(** [C10] as stated fails for a failed read: on an unreadable table file
    [pd.read_excel] raises, and the call returns [True]. *)
Lemma read_failure_returns_true :
  (read_excel reliable corrupt).2 = inl (ValueError "File is not a zip file")
  ∧ (save_of reliable sample_caller corrupt).2 = inr true
  ∧ ¬ read_failure_reported reliable sample_caller corrupt.
Proof.
  split; [reflexivity|]. split; [reflexivity|].
  intros H. unfold read_failure_reported in H.
  assert ((save_of reliable sample_caller corrupt).2 = inr false) as Hf
    by (apply H; eexists; reflexivity).
  discriminate Hf.
Qed.

Lemma lock_timeout_no_write_witness :
  save_of contended sample_caller fresh =
  ({| disk := None;
      log := [{| levelname := ERROR;
                 msg := "Error saving debate to Excel: The file lock 'all_debates_summary.xlsx.lock' could not be acquired.";
                 extra := [("msg_type", VStr "system")] |}] |},
   inr false).
Proof.
  refine (proj1 (proj2 (lock_timeout_no_write contended (VInt 3) (VStr "vanilla")
            (VStr "a1") (VInt 1) (VInt 4)
            (Mapping [("claim", VStr "Cats are liquid")]) fresh)) _).
  intros w [= <-]. lia.
Defined.

(** *** Several callers *)

Lemma lookup_pcs_insert (l : list pc) (i k : nat) (p q : pc) :
  l !! i = Some p →
  <[i:=q]> l !! k = if decide (k = i) then Some q else l !! k.
Proof.
  intros Hi. destruct (decide (k = i)) as [->|Hne].
  - apply list_lookup_insert_eq. by eapply lookup_lt_Some.
  - by apply list_lookup_insert_ne.
Qed.

Lemma on_error_disk (e : exn) (s s' : state) (r : exn + bool) :
  on_error e s = (s', r) → disk s' = disk s ∧ r = inr false.
Proof. unfold on_error, bind, logger_error, ret. by intros [= <- <-]. Qed.

Lemma load_of_returns (ev : env) (c : caller) (s s' : state) (df : DataFrame) :
  load_of ev c s = (s', inr df) →
  disk s' = disk s ∧ df = reloaded ev (disk s) ++ [row_of c].
Proof.
  unfold load_of, row_of. destruct (c_claim_data c) as [d|v] eqn:Hcd.
  - rewrite (load_frame_mapping _ _ _ _ _ _ _ d s eq_refl).
    destruct s as [[[df0|e]|] lg]; simpl; by intros [= <- <-].
  - unfold load_frame, bind, get_claim, raise. by intros [=].
Qed.

Lemma load_of_raises (ev : env) (c : caller) (s s' : state) (e : exn) :
  load_of ev c s = (s', inl e) → disk s' = disk s.
Proof.
  unfold load_of. destruct (c_claim_data c) as [d|v] eqn:Hcd.
  - rewrite (load_frame_mapping _ _ _ _ _ _ _ d s eq_refl).
    destruct s as [[[df0|e0]|] lg]; simpl; by intros [=].
  - unfold load_frame, bind, get_claim, raise. by intros [= <- _].
Qed.

Lemma store_frame_returns (ev : env) (df : DataFrame) (s s' : state) (b : bool) :
  store_frame ev df s = (s', inr b) →
  write ev = Written ∧ disk s' = Some (Workbook df) ∧ b = true.
Proof.
  unfold store_frame, bind, to_excel, logger_info, ret.
  destruct (write ev) as [|e left_behind]; [|done]. simpl.
  by intros [= <- <-].
Qed.

Lemma store_frame_raises (ev : env) (df : DataFrame) (s s' : state) (e : exn) :
  store_frame ev df s = (s', inl e) →
  ∃ left_behind, write ev = WriteFails e left_behind ∧ disk s' = left_behind.
Proof.
  unfold store_frame, bind, to_excel, logger_info, ret.
  destruct (write ev) as [|e' left_behind]; [done|]. simpl.
  intros [= <- <-]. eauto.
Qed.

(** The number of rows after a save, when loading keeps the number of
    rows; the rows after a save, when loading keeps the rows. *)
Lemma append_row_length (ev : env) (d : option file_content) (row : Row) :
  (∀ df, length (reload ev df) = length df) →
  length (frame_of (append_row ev d row)) = S (length (frame_of d)).
Proof.
  intros Hlen. unfold append_row. simpl. rewrite length_app. simpl.
  destruct d as [[df|e]|]; simpl; rewrite ?Hlen; lia.
Qed.

Lemma append_row_rows (ev : env) (d : option file_content) (row : Row) :
  (∀ df, reload ev df = df) →
  frame_of (append_row ev d row) = frame_of d ++ [row].
Proof.
  intros Hid. unfold append_row. simpl.
  destruct d as [[df|e]|]; simpl; by rewrite ?Hid.
Qed.

Lemma replay_snoc (callers : list caller) (world : nat → env)
    (d : option file_content) (order : list nat) (i : nat) :
  replay callers world d (order ++ [i]) =
  append_row (world i) (replay callers world d order) (row_at callers i).
Proof. unfold replay. by rewrite foldl_app. Qed.

Lemma replay_length (callers : list caller) (world : nat → env)
    (d : option file_content) (order : list nat) :
  reload_keeps_length world →
  length (frame_of (replay callers world d order)) =
  (length (frame_of d) + length order)%nat.
Proof.
  intros Hlen. induction order as [|i order IH] using rev_ind.
  - simpl. lia.
  - rewrite replay_snoc, append_row_length by apply Hlen.
    rewrite IH, length_app. simpl. lia.
Qed.

Lemma replay_rows (callers : list caller) (world : nat → env)
    (d : option file_content) (order : list nat) :
  reload_keeps_rows world →
  frame_of (replay callers world d order) =
  frame_of d ++ map (row_at callers) order.
Proof.
  intros Hid. induction order as [|i order IH] using rev_ind.
  - simpl. by rewrite app_nil_r.
  - rewrite replay_snoc, append_row_rows by apply Hid.
    by rewrite IH, map_app, app_assoc.
Qed.

Lemma boot_serialized (callers : list caller) (world : nat → env)
    (d : option file_content) :
  serialized callers world d (boot d (length callers)).
Proof.
  unfold serialized, boot. simpl. split_and!.
  - apply length_replicate.
  - intros i p [-> _]%lookup_replicate. done.
  - done.
  - intros i df [[=] _]%lookup_replicate.
  - intros _. exists []. split_and!.
    + constructor.
    + intros i. split; [by intros ?%elem_of_nil|].
      intros (p & [-> _]%lookup_replicate & Hs). done.
    + done.
Qed.

Section runs.
Variable callers : list caller.
Variable world : nat → env.
Variable d : option file_content.

(** Two callers inside their cycles are the same caller. *)
Lemma serialized_exclusive (σ : system) (i j : nat) (p q : pc) :
  serialized callers world d σ →
  pcs σ !! i = Some p → in_cycle p = true →
  pcs σ !! j = Some q → in_cycle q = true →
  i = j.
Proof.
  intros (_ & Hhold & _) Hi Hp Hj Hq.
  pose proof (Hhold i p Hi Hp) as Hmi. pose proof (Hhold j q Hj Hq) as Hmj.
  congruence.
Qed.

Lemma step_serialized (σ σ' : system) :
  serialized callers world d σ → step callers world σ σ' →
  serialized callers world d σ'.
Proof.
  intros Hinv Hstep.
  pose proof (serialized_exclusive σ) as Hexcl. specialize (Hexcl).
  destruct Hinv as (Hlen & Hhold & Hheld & Hload & Hacc).
  assert (serialized callers world d σ) as Hinv by (unfold serialized; eauto 10).
  destruct Hstep as [i σ Hi Hm|i j σ s' Hi Hm Herr|i c σ s' df Hi Hc Hrun
                    |i c σ s' e s'' Hi Hc Hrun Herr|i df σ s' Hi Hrun
                    |i df σ s' e s'' Hi Hrun Herr|i σ Hi];
    unfold serialized; simpl.
  - (* acquire *)
    split_and!.
    + by rewrite length_insert.
    + intros k p. rewrite (lookup_pcs_insert _ i k _ _ Hi).
      case_decide as Hk; [by subst|]. intros Hk' Hp.
      pose proof (Hhold k p Hk' Hp). congruence.
    + intros k [= <-]. exists Holding.
      by rewrite (lookup_pcs_insert _ i i _ _ Hi), decide_True.
    + intros k df. rewrite (lookup_pcs_insert _ i k _ _ Hi).
      case_decide; [done|]. apply Hload.
    + intros Hw. destruct (Hacc Hw) as (order & Hnd & Hord & Hframe).
      exists order. split_and!; [done| |done].
      intros k. rewrite Hord. rewrite (lookup_pcs_insert _ i k _ _ Hi).
      case_decide as Hk; [subst k|done].
      split; intros (p & Hp & Hs); simplify_eq; done.
  - (* timeout *)
    apply on_error_disk in Herr as [Hdisk _]. rewrite Hdisk.
    destruct (Hheld j Hm) as (q & Hj & Hq).
    assert (i ≠ j) as Hij by (intros ->; simplify_eq; done).
    split_and!.
    + by rewrite length_insert.
    + intros k p. rewrite (lookup_pcs_insert _ i k _ _ Hi).
      case_decide as Hk; [by intros [= <-]|]. apply Hhold.
    + intros k Hk. rewrite (lookup_pcs_insert _ i k _ _ Hi).
      rewrite decide_False by congruence. by apply Hheld.
    + intros k df. rewrite (lookup_pcs_insert _ i k _ _ Hi).
      case_decide; [done|]. apply Hload.
    + intros Hw. destruct (Hacc Hw) as (order & Hnd & Hord & Hframe).
      exists order. split_and!; [done| |done].
      intros k. rewrite Hord. rewrite (lookup_pcs_insert _ i k _ _ Hi).
      case_decide as Hk; [subst k|done].
      split; intros (p & Hp & Hs); simplify_eq; done.
  - (* load *)
    apply load_of_returns in Hrun as [Hdisk ->]. rewrite Hdisk.
    pose proof (Hhold i Holding Hi eq_refl) as Hmi.
    split_and!.
    + by rewrite length_insert.
    + intros k p. rewrite (lookup_pcs_insert _ i k _ _ Hi).
      case_decide as Hk; [by subst|]. apply Hhold.
    + intros k Hk. rewrite (lookup_pcs_insert _ i k _ _ Hi).
      assert (k = i) as -> by congruence. rewrite decide_True by done. eauto.
    + intros k df. rewrite (lookup_pcs_insert _ i k _ _ Hi).
      case_decide as Hk; [|apply Hload].
      subst k. intros [= <-]. unfold row_at. by rewrite Hc.
    + intros Hw. destruct (Hacc Hw) as (order & Hnd & Hord & Hframe).
      exists order. split_and!; [done| |done].
      intros k. rewrite Hord. rewrite (lookup_pcs_insert _ i k _ _ Hi).
      case_decide as Hk; [subst k|done].
      split; intros (p & Hp & Hs); simplify_eq; done.
  - (* load raises *)
    apply load_of_raises in Hrun as Hdisk.
    apply on_error_disk in Herr as [Hdisk' _]. rewrite Hdisk', Hdisk.
    split_and!.
    + by rewrite length_insert.
    + intros k p. rewrite (lookup_pcs_insert _ i k _ _ Hi).
      case_decide as Hk; [by intros [= <-]|]. intros Hk' Hp.
      destruct Hk. symmetry. by eapply (Hexcl i k Holding p).
    + done.
    + intros k df. rewrite (lookup_pcs_insert _ i k _ _ Hi).
      case_decide; [done|]. apply Hload.
    + intros Hw. destruct (Hacc Hw) as (order & Hnd & Hord & Hframe).
      exists order. split_and!; [done| |done].
      intros k. rewrite Hord. rewrite (lookup_pcs_insert _ i k _ _ Hi).
      case_decide as Hk; [subst k|done].
      split; intros (p & Hp & Hs); simplify_eq; done.
  - (* store *)
    apply store_frame_returns in Hrun as (_ & Hdisk & _). rewrite Hdisk.
    pose proof (Hhold i (Loaded df) Hi eq_refl) as Hmi.
    pose proof (Hload i df Hi) as Hdf.
    split_and!.
    + by rewrite length_insert.
    + intros k p. rewrite (lookup_pcs_insert _ i k _ _ Hi).
      case_decide as Hk; [by subst|]. apply Hhold.
    + intros k Hk. rewrite (lookup_pcs_insert _ i k _ _ Hi).
      assert (k = i) as -> by congruence. rewrite decide_True by done. eauto.
    + intros k df'. rewrite (lookup_pcs_insert _ i k _ _ Hi).
      case_decide as Hk; [done|]. intros Hk'.
      destruct Hk. symmetry. by eapply (Hexcl i k (Loaded df) (Loaded df')).
    + intros Hw. destruct (Hacc Hw) as (order & Hnd & Hord & Hframe).
      exists (order ++ [i]). split_and!.
      * apply NoDup_app. split_and!; [done| |apply NoDup_singleton].
        intros k Hk ->%list_elem_of_singleton.
        apply Hord in Hk as (p & Hp & Hs). by simplify_eq.
      * intros k. rewrite elem_of_app, list_elem_of_singleton, Hord.
        rewrite (lookup_pcs_insert _ i k _ _ Hi).
        case_decide as Hk; [subst k|].
        { split; [intros _; by exists Stored|by right]. }
        split; [by intros [?|?]|by left].
      * rewrite replay_snoc, <- Hframe, Hdf. done.
  - (* store raises *)
    apply store_frame_raises in Hrun as (left_behind & Hfails & Hdisk).
    apply on_error_disk in Herr as [Hdisk' _].
    split_and!.
    + by rewrite length_insert.
    + intros k p. rewrite (lookup_pcs_insert _ i k _ _ Hi).
      case_decide as Hk; [by intros [= <-]|]. intros Hk' Hp.
      destruct Hk. symmetry. by eapply (Hexcl i k (Loaded df) p).
    + done.
    + intros k df'. rewrite (lookup_pcs_insert _ i k _ _ Hi).
      case_decide as Hk; [done|]. intros Hk'.
      destruct Hk. symmetry. by eapply (Hexcl i k (Loaded df) (Loaded df')).
    + intros Hw. specialize (Hw i). congruence.
  - (* release *)
    split_and!.
    + by rewrite length_insert.
    + intros k p. rewrite (lookup_pcs_insert _ i k _ _ Hi).
      case_decide as Hk; [by intros [= <-]|]. intros Hk' Hp.
      destruct Hk. symmetry. by eapply (Hexcl i k Stored p).
    + done.
    + intros k df. rewrite (lookup_pcs_insert _ i k _ _ Hi).
      case_decide; [done|]. apply Hload.
    + intros Hw. destruct (Hacc Hw) as (order & Hnd & Hord & Hframe).
      exists order. split_and!; [done| |done].
      intros k. rewrite Hord. rewrite (lookup_pcs_insert _ i k _ _ Hi).
      case_decide as Hk; [subst k|done].
      split; intros (p & Hp & Hs); simplify_eq; eauto.
Qed.

Lemma reachable_serialized (σ : system) :
  reachable callers world d σ → serialized callers world d σ.
Proof.
  unfold reachable. intros Hrun.
  eapply (rtc_ind_r (serialized callers world d));
    [apply boot_serialized| |exact Hrun].
  intros σ1 σ2 _ Hstep Hinv. by eapply step_serialized.
Qed.

(** A caller that has not returned can always take its next step. *)
Lemma caller_can_step (σ : system) (i : nat) (p : pc) :
  reachable callers world d σ →
  pcs σ !! i = Some p → (∀ b, p ≠ Returned b) →
  ∃ σ', step callers world σ σ'.
Proof.
  intros Hrun Hi Hp.
  destruct (reachable_serialized σ Hrun) as (Hlen & _).
  destruct p as [| |df| |b]; [| | | |by destruct (Hp b)].
  - destruct (marker σ) as [j|] eqn:Hm.
    + eexists. by eapply (step_timeout _ _ i j).
    + eexists. by eapply (step_acquire _ _ i).
  - destruct (lookup_lt_is_Some_2 callers i) as [c Hc].
    { rewrite <- Hlen. by eapply lookup_lt_Some. }
    destruct (load_of (world i) c (shared σ)) as [s' [e|df]] eqn:Hrun'.
    + eexists. by eapply (step_load_raises _ _ i c).
    + eexists. by eapply (step_load _ _ i c).
  - destruct (store_frame (world i) df (shared σ)) as [s' [e|b]] eqn:Hrun'.
    + eexists. by eapply (step_store_raises _ _ i df).
    + destruct (store_frame_returns _ _ _ _ _ Hrun') as (_ & _ & ->).
      eexists. by eapply (step_store _ _ i df).
  - eexists. by eapply (step_release _ _ i).
Qed.

Lemma rows_distinct (order : list nat) :
  NoDup (row_of <$> callers) → NoDup order →
  (∀ i, i ∈ order → i < length callers)%nat →
  NoDup (map (row_at callers) order).
Proof.
  intros Hrows Hnd Hin. apply NoDup_fmap_2_strong; [|done].
  intros i j Hi%Hin Hj%Hin.
  destruct (lookup_lt_is_Some_2 callers i Hi) as [ci Hci].
  destruct (lookup_lt_is_Some_2 callers j Hj) as [cj Hcj].
  unfold row_at. rewrite Hci, Hcj. simpl. intros Heq.
  eapply (proj1 (NoDup_alt _) Hrows i j (row_of ci)).
  - by rewrite list_lookup_fmap, Hci.
  - by rewrite list_lookup_fmap, Hcj, Heq.
Qed.

(** [C9], amended.  In every run of any number of callers, whatever a
    write or a load does: two callers are never inside their
    read-modify-write cycles at the same time.  Provided no write
    fails: the table file is the one obtained from the initial one by
    the saves, one after the other, of the callers that have saved
    (those that return [True]), each once, each save being what the
    caller loaded followed by its own row; a caller that gave up waiting
    for the marker returned [False] and saved nothing.  Provided also
    that loading a saved table keeps the number of its rows: the table
    has gained one row for each caller that has saved, as many as there
    are callers when all have returned [True].  Provided loading returns
    the rows as they were saved: the table holds the rows it had at the
    start followed by the rows of the callers that have saved, in the
    order of the saves, without equal rows when the callers' rows
    differ. *)
Theorem appends_serialized (σ : system) :
  reachable callers world d σ →
  (∀ i j p q,
     pcs σ !! i = Some p → in_cycle p = true →
     pcs σ !! j = Some q → in_cycle q = true → i = j)
  ∧ (writes_succeed world →
     ∃ order : list nat,
       NoDup order
       ∧ (∀ i, i ∈ order ↔ ∃ p, pcs σ !! i = Some p ∧ has_saved p = true)
       ∧ disk (shared σ) = replay callers world d order
       ∧ (reload_keeps_length world →
          length (frame_of (disk (shared σ))) =
          (length (frame_of d) + length order)%nat
          ∧ ((∀ i, (i < length callers)%nat → pcs σ !! i = Some (Returned true)) →
             length (frame_of (disk (shared σ))) =
             (length (frame_of d) + length callers)%nat))
       ∧ (reload_keeps_rows world →
          frame_of (disk (shared σ)) = frame_of d ++ map (row_at callers) order
          ∧ (NoDup (row_of <$> callers) → NoDup (map (row_at callers) order)))).
Proof.
  intros Hrun. pose proof (reachable_serialized σ Hrun) as Hinv.
  split; [intros i j p q; by apply serialized_exclusive|].
  intros Hw.
  pose proof Hinv as (Hlen & _ & _ & _ & Hacc).
  destruct (Hacc Hw) as (order & Hnd & Hord & Hframe).
  assert (∀ i, i ∈ order → (i < length callers)%nat) as Hbound.
  { intros i (p & Hp & _)%Hord. rewrite <- Hlen. by eapply lookup_lt_Some. }
  exists order. split_and!; [done..| |].
  - intros Hkeep. rewrite Hframe, replay_length by done. split; [done|].
    intros Hall. f_equal.
    assert (order ≡ₚ seq 0 (length callers)) as Hperm.
    { apply NoDup_Permutation; [done|apply NoDup_seq|].
      intros i. rewrite elem_of_seq. split.
      - intros Hi%Hbound. lia.
      - intros [_ Hi]. apply Hord. exists (Returned true).
        split; [apply Hall; lia|done]. }
    by rewrite Hperm, length_seq.
  - intros Hkeep. rewrite Hframe, replay_rows by done. split; [done|].
    intros Hrows. by apply rows_distinct.
Qed.
End runs.

(** The steps are those of the function: a caller running alone ends
    where [save_debate_in_excel] ends, with the value it returns. *)
Lemma solo_run (ev : env) (c : caller) (d : option file_content) (w : Z) :
  lock_wait ev = Some w → w ≤ lock_timeout →
  ∃ b : bool,
    (save_of ev c (shared (boot d 1))).2 = inr b
    ∧ rtc (step [c] (λ _, ev)) (boot d 1)
        {| marker := None;
           shared := (save_of ev c (shared (boot d 1))).1;
           pcs := [Returned b] |}.
Proof.
  intros Hw Hle. unfold save_of, save_debate_in_excel, with_lock.
  rewrite Hw, decide_True by done. simpl.
  unfold try_except, locked_body, bind.
  fold (load_of ev c). set (s := {| disk := d; log := [] |}).
  pose (σ1 := {| marker := Some 0%nat; shared := s; pcs := [Holding] |}).
  assert (step [c] (λ _, ev) (boot d 1) σ1) as Hacq
    by (by apply (step_acquire _ _ 0 (boot d 1))).
  destruct (load_of ev c s) as [s' [e|df]] eqn:Hload.
  - destruct (on_error e s') as [s'' r] eqn:Herr.
    destruct (on_error_disk e s' s'' r Herr) as [_ ->].
    exists false. split; [done|].
    eapply rtc_l; [exact Hacq|]. apply rtc_once.
    by apply (step_load_raises _ _ 0 c σ1 s' e s'').
  - destruct (store_frame ev df s') as [s'' [e|b]] eqn:Hstore.
    + destruct (on_error e s'') as [s3 r] eqn:Herr.
      destruct (on_error_disk e s'' s3 r Herr) as [_ ->].
      exists false. split; [done|].
      eapply rtc_l; [exact Hacq|].
      eapply rtc_l; [by apply (step_load _ _ 0 c σ1 s' df)|].
      eapply rtc_l; [by eapply (step_store_raises _ _ 0 df _ s'' e s3)|].
      apply rtc_refl.
    + destruct (store_frame_returns _ _ _ _ _ Hstore) as (_ & _ & ->).
      exists true. split; [done|].
      eapply rtc_l; [exact Hacq|].
      eapply rtc_l; [by apply (step_load _ _ 0 c σ1 s' df)|].
      eapply rtc_l; [by eapply (step_store _ _ 0 df)|].
      apply rtc_once. by eapply (step_release _ _ 0).
Qed.

Lemma one_after_the_other :
  reachable [sample_caller; other_caller] (λ _, reliable) None after_both.
Proof.
  unfold reachable.
  eapply rtc_l; [by apply (step_acquire _ _ 0)|].
  eapply rtc_l; [eapply (step_load _ _ 0); [done..|cbv; reflexivity]|].
  eapply rtc_l; [eapply (step_store _ _ 0); [done|cbv; reflexivity]|].
  eapply rtc_l; [by eapply (step_release _ _ 0)|].
  eapply rtc_l; [by eapply (step_acquire _ _ 1)|].
  eapply rtc_l; [eapply (step_load _ _ 1); [done..|cbv; reflexivity]|].
  eapply rtc_l; [eapply (step_store _ _ 1); [done|cbv; reflexivity]|].
  eapply rtc_l; [by eapply (step_release _ _ 1)|].
  apply rtc_refl.
Qed.

Lemma appends_serialized_witness :
  ∃ order : list nat,
    disk (shared after_both) =
      replay [sample_caller; other_caller] (λ _, reliable) None order
    ∧ length (frame_of (disk (shared after_both))) = 2%nat.
Proof.
  destruct (proj2 (appends_serialized [sample_caller; other_caller]
                     (λ _, reliable) None after_both one_after_the_other)
              (λ _, eq_refl))
    as (order & _ & _ & Hdisk & Hlength & _).
  exists order. split; [exact Hdisk|].
  refine (proj2 (Hlength (λ _ _, eq_refl)) _).
  intros [|[|i]] Hi; [reflexivity|reflexivity|simpl in Hi; lia].
Defined.

(** The condition on the writes is needed.  Of three callers, the first
    saves and returns [True]; the write of the second is interrupted and
    leaves a file that cannot be parsed, and the second returns [False];
    the third finds the file unreadable, restarts the table and returns
    [True].  Two callers have returned [True] and the table has one
    row: the row of the first is lost. *)
Lemma failed_write_loses_rows :
  ∃ σ, reachable [sample_caller; other_caller; third_caller]
         (λ i, if decide (i = 1%nat) then torn_write else reliable) None σ
       ∧ pcs σ = [Returned true; Returned false; Returned true]
       ∧ frame_of (disk (shared σ)) = [row_of third_caller].
Proof.
  eexists. split_and!.
  - unfold reachable.
    eapply rtc_l; [by apply (step_acquire _ _ 0)|].
    eapply rtc_l; [eapply (step_load _ _ 0); [done..|cbv; reflexivity]|].
    eapply rtc_l; [eapply (step_store _ _ 0); [done|cbv; reflexivity]|].
    eapply rtc_l; [by eapply (step_release _ _ 0)|].
    eapply rtc_l; [by eapply (step_acquire _ _ 1)|].
    eapply rtc_l; [eapply (step_load _ _ 1); [done..|cbv; reflexivity]|].
    eapply rtc_l;
      [eapply (step_store_raises _ _ 1); [done|cbv; reflexivity|cbv; reflexivity]|].
    eapply rtc_l; [by eapply (step_acquire _ _ 2)|].
    eapply rtc_l; [eapply (step_load _ _ 2); [done..|cbv; reflexivity]|].
    eapply rtc_l; [eapply (step_store _ _ 2); [done|cbv; reflexivity]|].
    eapply rtc_l; [by eapply (step_release _ _ 2)|].
    apply rtc_refl.
  - reflexivity.
  - reflexivity.
Qed.

(** [C9] as stated fails when a caller gives up: of two callers, the
    first acquires the marker, the second times out waiting for it and
    returns [False], the first saves and returns [True]; all have
    returned and the table has one row, not two. *)
Lemma two_callers_one_row :
  ¬ one_row_per_caller [sample_caller; other_caller] (λ _, reliable) None.
Proof.
  intros Hclaim.
  pose (σ1 := {| marker := Some 0%nat; shared := fresh;
                 pcs := [Holding; Waiting] |}).
  pose (s2 := (on_error (Timeout lock_file) fresh).1).
  pose (σ2 := {| marker := Some 0%nat; shared := s2;
                 pcs := [Holding; Returned false] |}).
  pose (df := [row_of sample_caller]).
  pose (σ3 := {| marker := Some 0%nat; shared := s2;
                 pcs := [Loaded df; Returned false] |}).
  pose (s4 := (store_frame reliable df s2).1).
  pose (σ4 := {| marker := Some 0%nat; shared := s4;
                 pcs := [Stored; Returned false] |}).
  pose (σ5 := {| marker := None; shared := s4;
                 pcs := [Returned true; Returned false] |}).
  assert (reachable [sample_caller; other_caller] (λ _, reliable) None σ5) as Hrun.
  { unfold reachable.
    eapply (rtc_l _ _ σ1); [by apply (step_acquire _ _ 0 (boot None 2))|].
    eapply (rtc_l _ _ σ2); [by apply (step_timeout _ _ 1 0 σ1 s2)|].
    eapply (rtc_l _ _ σ3);
      [by apply (step_load _ _ 0 sample_caller σ2 s2 df)|].
    eapply (rtc_l _ _ σ4); [by apply (step_store _ _ 0 df σ3 s4)|].
    eapply (rtc_l _ _ σ5); [by apply (step_release _ _ 0 σ4)|].
    apply rtc_refl. }
  specialize (Hclaim σ5 Hrun).
  assert (all_returned σ5) as Hall.
  { intros [|[|i]] p; simpl; intros [= <-]; eauto. }
  specialize (Hclaim Hall). vm_compute in Hclaim. discriminate Hclaim.
Qed.

End StoreSpec.


(** ** Insertion-ordered dictionaries: keys and lookups *)

Section odict_facts.
Context {V : Type}.
Implicit Types (d e : odict V) (k : string) (v : V).

Lemma filter_ext_in {A} (P Q : A → Prop) `{!∀ x, Decision (P x), !∀ x, Decision (Q x)}
    (l : list A) :
  (∀ x, x ∈ l → (P x ↔ Q x)) → filter P l = filter Q l.
Proof.
  induction l as [|x l IH]; intros Hext; [done|].
  rewrite !filter_cons, IH.
  - apply decide_ext, Hext. left.
  - intros y Hy. apply Hext. by right.
Qed.

Lemma filter_all {A} (P : A → Prop) `{!∀ x, Decision (P x)} (l : list A) :
  (∀ x, x ∈ l → P x) → filter P l = l.
Proof.
  induction l as [|x l IH]; intros Hall; [done|].
  rewrite filter_cons_True by (apply Hall; left).
  f_equal. apply IH. intros y Hy. apply Hall. by right.
Qed.

Lemma dict_get_None k d : dict_get k d = None ↔ k ∉ keys d.
Proof.
  induction d as [|[k' v'] d IH]; simpl.
  - split; [intros _; apply not_elem_of_nil|done].
  - change (keys ((k', v') :: d)) with (k' :: keys d).
    rewrite not_elem_of_cons. case_decide as Hk.
    + split; [done|]. by intros [? _].
    + rewrite IH. split; [by intros ?|by intros [_ ?]].
Qed.

Lemma dict_get_is_Some k d : is_Some (dict_get k d) ↔ k ∈ keys d.
Proof.
  rewrite <- not_eq_None_Some, dict_get_None.
  split; [apply dec_stable|by intros ? ?].
Qed.

Lemma keys_dict_set k v d :
  keys (dict_set k v d) = if decide (k ∈ keys d) then keys d else keys d ++ [k].
Proof.
  induction d as [|[k' v'] d IH]; [done|].
  simpl. destruct (decide (k' = k)) as [->|Hk].
  - rewrite decide_True; [done|left].
  - change (keys ((k', v') :: dict_set k v d)) with (k' :: keys (dict_set k v d)).
    rewrite IH. destruct (decide (k ∈ keys d)) as [Hin|Hout].
    + rewrite decide_True; [done|by right].
    + rewrite decide_False; [done|]. rewrite not_elem_of_cons. naive_solver.
Qed.

Lemma dict_get_set k k' v d :
  dict_get k' (dict_set k v d) = if decide (k' = k) then Some v else dict_get k' d.
Proof.
  induction d as [|[k0 v0] d IH]; simpl.
  - repeat case_decide; naive_solver.
  - repeat (case_decide; simpl; subst); try done; naive_solver.
Qed.

Lemma keys_dict_del k d :
  NoDup (keys d) → keys (dict_del k d) = filter (λ x, x ≠ k) (keys d).
Proof.
  induction d as [|[k' v'] d IH]; [done|].
  change (keys ((k', v') :: d)) with (k' :: keys d).
  intros [Hout Hnd]%NoDup_cons. simpl. destruct (decide (k' = k)) as [->|Hk].
  - rewrite filter_cons_False by naive_solver.
    clear IH Hnd. induction d as [|[k0 v0] d IH]; [done|].
    change (keys ((k0, v0) :: d)) with (k0 :: keys d) in *.
    apply not_elem_of_cons in Hout as [Hne Hout].
    rewrite filter_cons_True by done. f_equal. by apply IH.
  - rewrite filter_cons_True by done.
    change (keys ((k', v') :: dict_del k d)) with (k' :: keys (dict_del k d)).
    f_equal. by apply IH.
Qed.

Lemma dict_get_del k k' d :
  k' ≠ k → dict_get k' (dict_del k d) = dict_get k' d.
Proof.
  intros Hne. induction d as [|[k0 v0] d IH]; simpl; [done|].
  repeat (case_decide; simpl; subst); try done.
Qed.

Lemma keys_dict_update d e :
  NoDup (keys e) →
  keys (dict_update d e) = keys d ++ filter (λ k, k ∉ keys d) (keys e).
Proof.
  revert d. induction e as [|[k v] e IH]; intros d.
  - simpl. by rewrite app_nil_r.
  - change (keys ((k, v) :: e)) with (k :: keys e).
    intros [Hout Hnd]%NoDup_cons. simpl. rewrite IH by done. rewrite keys_dict_set.
    destruct (decide (k ∈ keys d)) as [Hin|Hnin].
    + by rewrite filter_cons_False by naive_solver.
    + rewrite filter_cons_True by done. rewrite <- app_assoc. simpl.
      do 2 f_equal. apply filter_ext_in. intros x Hx.
      rewrite elem_of_app, list_elem_of_singleton.
      assert (x ≠ k) by (by intros ->). tauto.
Qed.

Lemma dict_get_update k d e :
  NoDup (keys e) →
  dict_get k (dict_update d e) =
  (if decide (k ∈ keys e) then dict_get k e else dict_get k d).
Proof.
  revert d. induction e as [|[k0 v0] e IH]; intros d; [done|].
  change (keys ((k0, v0) :: e)) with (k0 :: keys e).
  intros [Hout Hnd]%NoDup_cons. simpl. rewrite IH by done.
  rewrite dict_get_set. destruct (decide (k0 = k)) as [->|Hne].
  - rewrite decide_False by done. rewrite decide_True by done.
    rewrite decide_True; [done|left].
  - rewrite (decide_False (P := k = k0)) by done.
    destruct (decide (k ∈ keys e)) as [Hin|Hnin].
    + rewrite decide_True; [done|by right].
    + rewrite decide_False; [done|]. rewrite not_elem_of_cons.
      split; [by intros ->|done].
Qed.

Lemma dict_set_wf k v d : dict_wf d → dict_wf (dict_set k v d).
Proof.
  unfold dict_wf. intros Hnd. rewrite keys_dict_set. case_decide; [done|].
  apply NoDup_app. split_and!; [done| |apply NoDup_singleton].
  by intros x Hx ->%list_elem_of_singleton.
Qed.

Lemma dict_update_wf d e : dict_wf d → dict_wf (dict_update d e).
Proof.
  revert d. induction e as [|[k v] e IH]; intros d Hd; [done|].
  simpl. by apply IH, dict_set_wf.
Qed.
End odict_facts.


(** ** The formatter and the filters *)

Module LogSpec.
Import LogMain.

(** Refutes membership of a literal in a list of other literals. *)
Ltac no_member H :=
  repeat (apply elem_of_cons in H as [H|H]; [discriminate H|]);
  by apply elem_of_nil in H.

Section envelope.
Variable getMessage : LogRecord → string.
Variable isoformat_utc : LogRecord → string.
Variable record : LogRecord.

(** The loop over the declared keys, from any state of the two
    dictionaries. *)
Lemma declared_keys_spec (items : odict string) (always message : odict pyval) :
  dict_wf always → dict_wf items →
  (∀ k, k ∈ keys items → k ∉ keys message) →
  (∀ i key val, items !! i = Some (key, val) →
      (val ∈ keys always ∧ val ∉ sources (take i items)) ∨ is_Some (record !! val)) →
  ∃ always' message',
    declared_keys record items always message = inr (always', message')
    ∧ keys message' = keys message ++ keys items
    ∧ keys always' = filter (λ r, r ∉ sources items) (keys always)
    ∧ (∀ r, r ∉ sources items → dict_get r always' = dict_get r always)
    ∧ (∀ k, k ∉ keys items → dict_get k message' = dict_get k message)
    ∧ (∀ i key val, items !! i = Some (key, val) →
         dict_get key message' =
         if decide (val ∈ keys always ∧ val ∉ sources (take i items))
         then dict_get val always else record !! val).
Proof.
  revert always message.
  induction items as [|[key val] items IH]; intros always message Hwa Hwi Hfresh Hsrc.
  { exists always, message. simpl. split_and!; try done.
    - by rewrite app_nil_r.
    - symmetry. apply filter_all. intros r _. apply not_elem_of_nil. }
  change (keys ((key, val) :: items)) with (key :: keys items) in *.
  change (sources ((key, val) :: items)) with (val :: sources items).
  apply NoDup_cons in Hwi as [Hkey Hwi].
  assert (key ∉ keys message) as Hnew by (apply Hfresh; left).
  simpl. destruct (dict_get val always) as [v|] eqn:Hget.
  - (* the source is a computed value still there *)
    assert (val ∈ keys always) as Hin by (apply dict_get_is_Some; eauto).
    destruct (IH (dict_del val always) (dict_set key v message))
      as (always' & message' & Hrun & Hkeys & Hak & Hav & Hmv & Hval).
    + unfold dict_wf. rewrite keys_dict_del by done. by apply NoDup_filter.
    + done.
    + intros k Hk. rewrite keys_dict_set, decide_False by done.
      rewrite elem_of_app, list_elem_of_singleton.
      intros [Hm| ->]; [|done]. apply (Hfresh k); [by right|done].
    + intros i key' val' Hi.
      destruct (Hsrc (S i) key' val' Hi) as [[Hr Hu]|Hattr]; [left|by right].
      change (sources (take (S i) ((key, val) :: items)))
        with (val :: sources (take i items)) in Hu.
      apply not_elem_of_cons in Hu as [Hne Hu]. split; [|done].
      rewrite keys_dict_del by done. by apply list_elem_of_filter.
    + exists always', message'. split_and!.
      * done.
      * rewrite Hkeys, keys_dict_set, decide_False by done.
        by rewrite <- app_assoc.
      * rewrite Hak, keys_dict_del by done. rewrite list_filter_filter.
        apply list_filter_iff. intros r. rewrite not_elem_of_cons. tauto.
      * intros r [Hne Hr]%not_elem_of_cons.
        rewrite Hav by done. by apply dict_get_del.
      * intros k [Hne Hk]%not_elem_of_cons.
        rewrite Hmv by done. rewrite dict_get_set. by rewrite decide_False.
      * intros [|i] key' val' Hi; simpl in Hi.
        -- injection Hi as <- <-. rewrite Hmv by done.
           rewrite dict_get_set, decide_True by done.
           rewrite decide_True; [done|]. split; [done|apply not_elem_of_nil].
        -- rewrite (Hval i key' val' Hi).
           change (sources (take (S i) ((key, val) :: items)))
             with (val :: sources (take i items)).
           rewrite keys_dict_del by done.
           destruct (decide (val' = val)) as [->|Hne].
           ++ rewrite !decide_False; [done| |].
              ** intros [_ Hu]. apply Hu. left.
              ** intros [[Hn _]%list_elem_of_filter _]. done.
           ++ rewrite dict_get_del by done. apply decide_ext.
              rewrite list_elem_of_filter, not_elem_of_cons. tauto.
  - (* the source is an attribute *)
    assert (val ∉ keys always) as Hout by (by apply dict_get_None).
    destruct (Hsrc 0%nat key val eq_refl) as [[Hr _]|[v Hattr]]; [done|].
    unfold getattr. rewrite Hattr.
    destruct (IH always (dict_set key v message))
      as (always' & message' & Hrun & Hkeys & Hak & Hav & Hmv & Hval).
    + done.
    + done.
    + intros k Hk. rewrite keys_dict_set, decide_False by done.
      rewrite elem_of_app, list_elem_of_singleton.
      intros [Hm| ->]; [|done]. apply (Hfresh k); [by right|done].
    + intros i key' val' Hi.
      destruct (Hsrc (S i) key' val' Hi) as [[Hr Hu]|Hattr']; [left|by right].
      change (sources (take (S i) ((key, val) :: items)))
        with (val :: sources (take i items)) in Hu.
      apply not_elem_of_cons in Hu as [Hne Hu]. done.
    + exists always', message'. split_and!.
      * done.
      * rewrite Hkeys, keys_dict_set, decide_False by done.
        by rewrite <- app_assoc.
      * rewrite Hak. apply filter_ext_in. intros r Hr.
        rewrite not_elem_of_cons.
        assert (r ≠ val) by (by intros ->). tauto.
      * intros r [Hne Hr]%not_elem_of_cons. by apply Hav.
      * intros k [Hne Hk]%not_elem_of_cons.
        rewrite Hmv by done. rewrite dict_get_set. by rewrite decide_False.
      * intros [|i] key' val' Hi; simpl in Hi.
        -- injection Hi as <- <-. rewrite Hmv by done.
           rewrite dict_get_set, decide_True by done.
           rewrite decide_False; [done|]. by intros [? _].
        -- rewrite (Hval i key' val' Hi).
           change (sources (take (S i) ((key, val) :: items)))
             with (val :: sources (take i items)).
           apply decide_ext. rewrite not_elem_of_cons.
           split; [|tauto]. intros [Hin Hu]. split_and!; [done| |done].
           by intros ->.
Qed.

(** Conversely, a run of the loop that does not raise resolved every
    source. *)
Lemma declared_keys_resolved (items : odict string) (always message : odict pyval)
    (r : odict pyval * odict pyval) :
  dict_wf always →
  declared_keys record items always message = inr r →
  ∀ i key val, items !! i = Some (key, val) →
    (val ∈ keys always ∧ val ∉ sources (take i items)) ∨ is_Some (record !! val).
Proof.
  revert always message.
  induction items as [|[key val] items IH]; intros always message Hwa Hrun;
    [by intros i key val [=]|].
  simpl in Hrun. destruct (dict_get val always) as [v|] eqn:Hget.
  - assert (val ∈ keys always) as Hin by (apply dict_get_is_Some; eauto).
    intros [|i] key' val' Hi; simpl in Hi.
    + injection Hi as <- <-. left. split; [done|apply not_elem_of_nil].
    + destruct (IH (dict_del val always) _
                  ltac:(unfold dict_wf; rewrite keys_dict_del by done;
                        by apply NoDup_filter) Hrun i key' val' Hi)
        as [[Hk Hu]|Hattr]; [left|by right].
      rewrite keys_dict_del in Hk by done.
      apply list_elem_of_filter in Hk as [Hne Hk].
      change (sources (take (S i) ((key, val) :: items)))
        with (val :: sources (take i items)).
      rewrite not_elem_of_cons. done.
  - unfold getattr in Hrun. destruct (record !! val) as [v|] eqn:Hattr; [|done].
    assert (val ∉ keys always) as Hout by (by apply dict_get_None).
    intros [|i] key' val' Hi; simpl in Hi.
    + injection Hi as <- <-. right. by rewrite Hattr.
    + destruct (IH always _ Hwa Hrun i key' val' Hi) as [[Hk Hu]|Hattr'];
        [left|by right].
      change (sources (take (S i) ((key, val) :: items)))
        with (val :: sources (take i items)).
      rewrite not_elem_of_cons. split_and!; [done| |done]. by intros ->.
Qed.

(** The loop over the extra attributes. *)
Lemma add_extras_spec (attrs : list string) (message : odict pyval) :
  NoDup attrs →
  keys (add_extras record attrs message) =
    keys message ++ filter (λ a, is_Some (record !! a) ∧ a ∉ keys message) attrs
  ∧ (∀ k, k ∉ attrs ∨ k ∈ keys message →
          dict_get k (add_extras record attrs message) = dict_get k message)
  ∧ (∀ a, a ∈ attrs → a ∉ keys message →
          dict_get a (add_extras record attrs message) = record !! a).
Proof.
  revert message. induction attrs as [|a attrs IH]; intros message Hnd.
  { simpl. rewrite app_nil_r. split_and!; [done..|]. by intros a ?%elem_of_nil. }
  apply NoDup_cons in Hnd as [Ha Hnd]. simpl.
  unfold hasattr, dict_has, getattr_or_none.
  destruct (decide (is_Some (record !! a) ∧ a ∉ keys message)) as [[[v Hv] Hnew]|Hno].
  - rewrite bool_decide_eq_true_2 by eauto.
    rewrite bool_decide_eq_false_2 by done. simpl. rewrite Hv. simpl.
    destruct (IH (dict_set a v message) Hnd) as (Hkeys & Hsame & Hattr).
    rewrite keys_dict_set, decide_False in Hkeys, Hsame, Hattr by done.
    split_and!.
    + rewrite Hkeys, filter_cons_True by eauto. rewrite <- app_assoc. simpl.
      do 2 f_equal. apply filter_ext_in. intros x Hx.
      rewrite elem_of_app, list_elem_of_singleton.
      assert (x ≠ a) by (by intros ->). tauto.
    + intros k Hk. rewrite Hsame, dict_get_set.
      * rewrite decide_False; [done|]. intros ->.
        destruct Hk as [Hk|Hk]; [apply Hk; left|done].
      * rewrite not_elem_of_cons, elem_of_app in *. tauto.
    + intros a' [->|Hin]%elem_of_cons Hout.
      * rewrite Hsame, dict_get_set, decide_True by
          (try done; right; apply elem_of_app; right; left). done.
      * apply Hattr; [done|]. rewrite elem_of_app, list_elem_of_singleton.
        intros [?| ->]; done.
  - assert (bool_decide (is_Some (record !! a))
            && negb (bool_decide (a ∈ keys message)) = false) as ->.
    { apply andb_false_iff. destruct (decide (is_Some (record !! a))).
      - right. apply negb_false_iff, bool_decide_eq_true_2.
        apply dec_stable. tauto.
      - left. by apply bool_decide_eq_false_2. }
    destruct (IH message Hnd) as (Hkeys & Hsame & Hattr).
    split_and!.
    + by rewrite Hkeys, filter_cons_False.
    + intros k Hk. apply Hsame. rewrite not_elem_of_cons in Hk. tauto.
    + intros a' [->|Hin]%elem_of_cons Hout; [|by apply Hattr].
      rewrite Hsame by (left; exact Ha).
      destruct (record !! a) as [v|] eqn:Hv; [destruct Hno; eauto|].
      by apply dict_get_None.
Qed.

Lemma reserved_not_extra (r : string) : r ∈ reserved → r ∉ extra_attrs.
Proof.
  unfold reserved, extra_attrs. intros Hr Hx.
  repeat (apply elem_of_cons in Hr as [->|Hr]; [no_member Hx|]).
  by apply elem_of_nil in Hr.
Qed.

Lemma always_include_wf : dict_wf (always_include getMessage isoformat_utc record).
Proof.
  unfold dict_wf. simpl. apply NoDup_cons. split; [|apply NoDup_singleton].
  by intros [=]%list_elem_of_singleton.
Qed.

(** What [_prepare_log_dict] returns when every source resolves. *)
Lemma prepare_log_dict_spec (fmt_keys : odict string) :
  dict_wf fmt_keys →
  sources_resolve fmt_keys record →
  ∃ message,
    _prepare_log_dict getMessage isoformat_utc fmt_keys record = inr message
    ∧ keys message =
      stage_declared fmt_keys ++ stage_extras fmt_keys record ++ stage_computed fmt_keys
    ∧ dict_wf message
    ∧ (∀ i key val, fmt_keys !! i = Some (key, val) →
         dict_get key message =
         if decide (key ∈ reserved ∧ key ∉ sources fmt_keys)
         then dict_get key (always_include getMessage isoformat_utc record)
         else if decide (val ∈ reserved ∧ val ∉ sources (take i fmt_keys))
              then dict_get val (always_include getMessage isoformat_utc record)
              else record !! val)
    ∧ (∀ a, a ∈ extra_attrs → a ∉ keys fmt_keys → dict_get a message = record !! a)
    ∧ (∀ r, r ∈ reserved → r ∉ sources fmt_keys →
         dict_get r message =
         dict_get r (always_include getMessage isoformat_utc record)).
Proof.
  intros Hwf Hsrc. unfold _prepare_log_dict.
  set (always := always_include getMessage isoformat_utc record).
  pose proof always_include_wf as Hwa. fold always in Hwa.
  destruct (declared_keys_spec fmt_keys always [] Hwa Hwf)
    as (always1 & m1 & -> & Hk1 & Hak & Hav & _ & Hval).
  { intros k _. apply not_elem_of_nil. }
  { exact Hsrc. }
  simpl in Hk1.
  assert (dict_wf always1) as Hwa1.
  { unfold dict_wf. rewrite Hak. by apply NoDup_filter. }
  assert (NoDup extra_attrs) as Hnde.
  { unfold extra_attrs.
    repeat (apply NoDup_cons; split; [intros Hx; no_member Hx|]).
    apply NoDup_nil_2. }
  destruct (add_extras_spec extra_attrs m1 Hnde) as (Hk2 & Hsame & Hattr).
  rewrite Hk1 in Hk2, Hsame, Hattr.
  set (m2 := add_extras record extra_attrs m1) in *.
  assert (∀ r, r ∈ keys always1 ↔ r ∈ reserved ∧ r ∉ sources fmt_keys) as Hrem.
  { intros r. rewrite Hak, list_elem_of_filter. tauto. }
  exists (dict_update m2 always1). split_and!.
  - done.
  - rewrite keys_dict_update, Hk2, Hak by done. rewrite <- app_assoc.
    unfold stage_declared, stage_extras, stage_computed. do 2 f_equal.
    rewrite list_filter_filter. apply filter_ext_in. intros r Hr.
    rewrite elem_of_app, list_elem_of_filter.
    pose proof (reserved_not_extra r Hr). tauto.
  - apply dict_update_wf. unfold dict_wf. rewrite Hk2.
    apply NoDup_app. split_and!; [done| |by apply NoDup_filter].
    intros k Hk [[_ Hout] _]%list_elem_of_filter. done.
  - intros i key val Hi. rewrite dict_get_update by done.
    assert (key ∈ keys fmt_keys) as Hkey.
    { apply list_elem_of_fmap. exists (key, val). split; [done|].
      by eapply list_elem_of_lookup_2. }
    destruct (decide (key ∈ keys always1)) as [Hin|Hout].
    + apply Hrem in Hin as Hin'. rewrite decide_True by done.
      apply Hav. tauto.
    + rewrite decide_False by (by rewrite <- Hrem).
      rewrite Hsame by (by right). apply Hval. done.
  - intros a Ha Hout. rewrite dict_get_update by done.
    rewrite decide_False.
    + by apply Hattr.
    + intros [Hr _]%Hrem. by apply (reserved_not_extra a).
  - intros r Hr Hu. rewrite dict_get_update by done.
    rewrite decide_True by (by apply Hrem). by apply Hav.
Qed.

(** [C6], amended.  For a field-order specification with distinct keys:
    when every source resolves (it is a computed value that no earlier
    entry consumed, or an attribute of the record) the envelope's keys
    are the declared keys, then the extra attributes set on the record
    and not declared, in the order msg_type, speaker, receiver, sender,
    round, topic, then the computed values that no entry consumed and
    whose name is not declared; no key occurs twice; a declared key has
    the computed value of its source if that was still there and the
    named attribute otherwise, except that a declared key named like an
    unconsumed computed value ends with that computed value.  When some
    source does not resolve, [AttributeError] is raised and there is no
    envelope. *)
Theorem envelope_three_stages (fmt_keys : odict string) :
  dict_wf fmt_keys →
  (sources_resolve fmt_keys record →
   ∃ message,
     _prepare_log_dict getMessage isoformat_utc fmt_keys record = inr message
     ∧ keys message =
       stage_declared fmt_keys ++ stage_extras fmt_keys record ++ stage_computed fmt_keys
     ∧ NoDup (keys message)
     ∧ (∀ i key val, fmt_keys !! i = Some (key, val) →
          dict_get key message =
          if decide (key ∈ reserved ∧ key ∉ sources fmt_keys)
          then dict_get key (always_include getMessage isoformat_utc record)
          else if decide (val ∈ reserved ∧ val ∉ sources (take i fmt_keys))
               then dict_get val (always_include getMessage isoformat_utc record)
               else record !! val)
     ∧ (∀ a, a ∈ extra_attrs → a ∉ keys fmt_keys → dict_get a message = record !! a)
     ∧ (∀ r, r ∈ reserved → r ∉ sources fmt_keys →
          dict_get r message =
          dict_get r (always_include getMessage isoformat_utc record)))
  ∧ (¬ sources_resolve fmt_keys record →
     ∃ e, _prepare_log_dict getMessage isoformat_utc fmt_keys record = inl e).
Proof.
  intros Hwf. split.
  - intros Hsrc. by apply prepare_log_dict_spec.
  - intros Hno. unfold _prepare_log_dict.
    destruct (declared_keys _ _ _ _) as [e|r] eqn:Hrun; [by exists e|].
    destruct Hno. intros i key val Hi.
    by apply (declared_keys_resolved _ _ _ r always_include_wf Hrun i key val Hi).
Qed.

Lemma prepare_log_dict_keys (fmt_keys : odict string) :
  dict_wf fmt_keys →
  sources_resolve fmt_keys record →
  ∃ message,
    _prepare_log_dict getMessage isoformat_utc fmt_keys record = inr message
    ∧ ∀ k, k ∈ keys message ↔
           k ∈ keys fmt_keys
           ∨ (k ∈ extra_attrs ∧ is_Some (record !! k))
           ∨ (k ∈ reserved ∧ k ∉ sources fmt_keys).
Proof.
  intros Hwf Hsrc.
  destruct (prepare_log_dict_spec fmt_keys Hwf Hsrc) as (message & Hrun & Hkeys & _).
  exists message. split; [done|]. intros k. rewrite Hkeys.
  unfold stage_declared, stage_extras, stage_computed.
  rewrite !elem_of_app, !list_elem_of_filter.
  destruct (decide (k ∈ keys fmt_keys)); tauto.
Qed.

(** [C7], amended.  For a field-order specification with distinct keys
    whose sources all resolve, the keys of the envelope are exactly: the
    declared keys, those of msg_type, speaker, receiver, sender, round,
    topic that are set on the record, and each of [message] and
    [timestamp] that no entry of the specification consumes as its
    source.  With the empty specification these are [message],
    [timestamp] and the extra attributes that are set. *)
Theorem envelope_keys (fmt_keys : odict string) :
  (dict_wf fmt_keys →
   sources_resolve fmt_keys record →
   ∃ message,
     _prepare_log_dict getMessage isoformat_utc fmt_keys record = inr message
     ∧ ∀ k, k ∈ keys message ↔
            k ∈ keys fmt_keys
            ∨ (k ∈ extra_attrs ∧ is_Some (record !! k))
            ∨ (k ∈ reserved ∧ k ∉ sources fmt_keys))
  ∧ has_minimum_keys getMessage isoformat_utc [] record.
Proof.
  split; [apply prepare_log_dict_keys|].
  destruct (prepare_log_dict_keys [] (NoDup_nil_2)) as (message & Hrun & Hkeys).
  { by intros i key val [=]. }
  exists message. split; [done|]. split_and!.
  - apply Hkeys. right. right. split; [left|apply not_elem_of_nil].
  - apply Hkeys. right. right. split; [right; left|apply not_elem_of_nil].
  - intros a Ha. rewrite Hkeys. split.
    + intros [Hk|[[_ Hs]|[Hr _]]]; [by apply elem_of_nil in Hk|done|].
      by destruct (reserved_not_extra a).
    + intros Hs. right. left. done.
Qed.

End envelope.

(** [C8] A record is emitted on exactly the channels whose filters
    accept it; a filter accepts exactly the records whose [msg_type] is
    its literal tag; a record that no channel accepts is emitted nowhere,
    and a record without [msg_type] is accepted by no filtered channel;
    the two filters never accept the same record. *)
Theorem routing_by_tag (record : LogRecord) (channels : list channel) :
  (∀ c, c ∈ deliveries channels record ↔ c ∈ channels ∧ accepts c record = true)
  ∧ (∀ f, filter_record f record = true ↔
          record !! "msg_type" = Some (VStr (tag_of f)))
  ∧ (∀ c f, filters c = [f] →
        (c ∈ deliveries channels record ↔
         c ∈ channels ∧ record !! "msg_type" = Some (VStr (tag_of f))))
  ∧ ((∀ c, c ∈ channels → accepts c record = false) →
     deliveries channels record = [])
  ∧ (record !! "msg_type" = None →
     ∀ c, c ∈ channels → filters c ≠ [] → c ∉ deliveries channels record)
  ∧ (filter_record MainDebateFilter record = true →
     filter_record PersuadorHelperFilter record = false)
  ∧ (filter_record PersuadorHelperFilter record = true →
     filter_record MainDebateFilter record = false).
Proof.
  assert (∀ f, filter_record f record = true ↔
               record !! "msg_type" = Some (VStr (tag_of f))) as Hfilter.
  { intros f. unfold filter_record, getattr_or_none.
    rewrite bool_decide_eq_true.
    destruct (record !! "msg_type") as [v|]; simpl; split; congruence. }
  assert (∀ c, c ∈ deliveries channels record ↔
               c ∈ channels ∧ accepts c record = true) as Hdel.
  { intros c. unfold deliveries. rewrite list_elem_of_filter. tauto. }
  split_and!.
  - exact Hdel.
  - exact Hfilter.
  - intros c f Hc. rewrite Hdel. unfold accepts. rewrite Hc. simpl.
    rewrite andb_true_r, Hfilter. done.
  - intros Hnone. unfold deliveries.
    destruct (filter _ channels) as [|c l] eqn:Hf; [done|].
    assert (c ∈ filter (λ c, accepts c record = true) channels) as Hin
      by (rewrite Hf; left).
    apply list_elem_of_filter in Hin as [Hacc Hin].
    rewrite (Hnone c Hin) in Hacc. discriminate Hacc.
  - intros Hnotag c Hc Hfs [_ Hacc]%Hdel. unfold accepts in Hacc.
    destruct (filters c) as [|f fs]; [done|]. simpl in Hacc.
    apply andb_true_iff in Hacc as [Hacc%Hfilter _]. congruence.
  - intros Hm%Hfilter. apply not_true_is_false. intros Hp%Hfilter.
    rewrite Hm in Hp. discriminate Hp.
  - intros Hp%Hfilter. apply not_true_is_false. intros Hm%Hfilter.
    rewrite Hm in Hp. discriminate Hp.
Qed.

Lemma envelope_three_stages_witness :
  ∃ message,
    _prepare_log_dict sample_getMessage sample_isoformat
      [("text", "message"); ("who", "speaker")] debate_event = inr message
    ∧ keys message = ["text"; "who"; "msg_type"; "speaker"; "round"; "timestamp"].
Proof.
  assert (dict_wf [("text", "message"); ("who", "speaker")]) as Hwf.
  { unfold dict_wf. simpl. apply NoDup_cons. split; [|apply NoDup_singleton].
    by intros [=]%list_elem_of_singleton. }
  destruct (proj1 (envelope_three_stages sample_getMessage sample_isoformat
                     debate_event [("text", "message"); ("who", "speaker")] Hwf))
    as (message & Hrun & Hkeys & _).
  - intros [|[|i]] key val; simpl; intros [= <- <-].
    + left. split; [left|apply not_elem_of_nil].
    + right. by eexists.
  - exists message. split; [exact Hrun|]. rewrite Hkeys. reflexivity.
Defined.

(** [C6] as stated fails when the specification names an attribute that
    the event does not have: formatting raises [AttributeError] and no
    envelope is emitted. *)
Lemma missing_attribute_raises :
  _prepare_log_dict sample_getMessage sample_isoformat [("who", "speaker")] bare_event
  = inl (AttributeError "'LogRecord' object has no attribute 'speaker'")
  ∧ ¬ emits_three_stages sample_getMessage sample_isoformat
        [("who", "speaker")] bare_event.
Proof.
  split; [reflexivity|].
  intros (message & Hrun & _). vm_compute in Hrun. discriminate Hrun.
Qed.

Lemma envelope_keys_witness :
  ∃ message,
    _prepare_log_dict sample_getMessage sample_isoformat
      [("text", "message")] debate_event = inr message
    ∧ "text" ∈ keys message ∧ "message" ∉ keys message.
Proof.
  destruct (proj1 (envelope_keys sample_getMessage sample_isoformat
                     debate_event [("text", "message")]))
    as (message & Hrun & Hkeys).
  - apply NoDup_singleton.
  - intros [|i] key val; simpl; intros [= <- <-].
    left. split; [left|apply not_elem_of_nil].
  - exists message. split; [exact Hrun|]. split.
    + apply Hkeys. left. left.
    + intros [Hk|[[Hk _]|[_ Hk]]]%Hkeys.
      * no_member Hk.
      * no_member Hk.
      * apply Hk. left.
Defined.

(** [C7] as stated fails when the specification renames the message:
    the text is emitted under the declared key and the envelope has no
    key [message]. *)
Lemma renamed_message_key :
  _prepare_log_dict sample_getMessage sample_isoformat [("text", "message")] bare_event
  = inr [("text", VStr "hello"); ("timestamp", VStr "2025-01-01T00:00:00+00:00")]
  ∧ ¬ has_minimum_keys sample_getMessage sample_isoformat
        [("text", "message")] bare_event.
Proof.
  split; [reflexivity|].
  intros (message & Hrun & Hm & _). vm_compute in Hrun.
  injection Hrun as <-. no_member Hm.
Qed.

Lemma routing_by_tag_witness :
  filter_record PersuadorHelperFilter debate_event = false
  ∧ deliveries [main_channel; helper_channel] debate_event = [main_channel]
  ∧ deliveries [main_channel; helper_channel] bare_event = [].
Proof.
  destruct (routing_by_tag debate_event [main_channel; helper_channel])
    as (_ & _ & _ & _ & _ & Hexcl & _).
  destruct (routing_by_tag bare_event [main_channel; helper_channel])
    as (_ & _ & _ & Hnone & _).
  split; [apply Hexcl; reflexivity|]. split; [reflexivity|].
  apply Hnone. intros c Hc.
  repeat (apply elem_of_cons in Hc as [->|Hc]; [reflexivity|]).
  by apply elem_of_nil in Hc.
Defined.

End LogSpec.


(** ** More on the batch runner *)

Module RunsMore.
Import MultipleRuns.

Section plans.
Variable args : Args.

Lemma prepare_runs_product (claims : list Z) (hts : list string)
    (runs : list run) (total_runs : nat) :
  sequential args = true →
  claim_indexes args = Some claims → claims ≠ [] →
  prepare_runs args hts runs total_runs =
  (runs ++ product_plan hts claims,
   (total_runs + length hts * length claims)%nat).
Proof.
  intros Hseq Hclaims Hne. revert runs total_runs.
  induction hts as [|h hts IH]; intros runs total_runs; simpl.
  - by rewrite app_nil_r, Nat.add_0_r.
  - rewrite Hseq, Hclaims. destruct claims as [|i claims]; [done|].
    simpl truthy. cbn [andb default].
    rewrite RunsSpec.append_claims_spec, IH. unfold id.
    rewrite <- app_assoc. f_equal. lia.
Qed.

(** [X1] With [--sequential] and at least one claim index, the plan is
    the product of the helper types and the claim indexes: helper types
    in the order given and, for each, one run per claim index in the
    order given; [total_runs] is the product of the two lengths. *)
Theorem sequential_plan_is_product (claims : list Z) (hts : list string) :
  sequential args = true →
  claim_indexes args = Some claims → claims ≠ [] →
  prepare_runs args hts [] 0%nat =
  (product_plan hts claims, (length hts * length claims)%nat)
  ∧ ∀ h i, (h, Some i) ∈ product_plan hts claims ↔ h ∈ hts ∧ i ∈ claims.
Proof.
  intros Hseq Hclaims Hne. split.
  - by rewrite (prepare_runs_product claims).
  - intros h i. unfold product_plan. rewrite list_elem_of_bind. split.
    + intros (h' & Hin & Hh'). apply list_elem_of_fmap in Hin as (i' & [= -> ->] & Hi').
      done.
    + intros [Hh Hi]. exists h. split; [|done].
      apply list_elem_of_fmap. by exists i.
Qed.
End plans.

Lemma sequential_plan_is_product_witness :
  prepare_runs (request (Some ["vanilla"; "fallacy"]) (Some [4; 2]) true)
    ["vanilla"; "fallacy"] [] 0%nat =
  ([("vanilla", Some 4); ("vanilla", Some 2); ("fallacy", Some 4); ("fallacy", Some 2)],
   4%nat).
Proof.
  refine (proj1 (sequential_plan_is_product
            (request (Some ["vanilla"; "fallacy"]) (Some [4; 2]) true)
            [4; 2] ["vanilla"; "fallacy"] eq_refl eq_refl _)).
  discriminate.
Defined.

Lemma prepare_runs_flag (args : Args) (b : bool) (hts : list string)
    (runs : list run) (total_runs : nat) :
  truthy (claim_indexes args) = false →
  prepare_runs (with_sequential b args) hts runs total_runs =
  prepare_runs args hts runs total_runs.
Proof.
  intros Hnone. revert runs total_runs.
  induction hts as [|h hts IH]; intros runs total_runs; simpl; [done|].
  rewrite Hnone, !andb_false_r. apply IH.
Qed.

Lemma execute_runs_flag (executable : string) (spawn : spawner) (args : Args)
    (b : bool) (runs : list run) (t : tally) :
  execute_runs executable spawn (with_sequential b args) runs t =
  execute_runs executable spawn args runs t.
Proof.
  revert t. induction runs as [|[h i] runs IH]; intros t; simpl; [done|].
  by rewrite IH.
Qed.

(** [X2] Without claim indexes [--sequential] changes nothing: [main]
    ends the same way, with the same plan (one run per helper type, no
    sub-index) and the same invocations, whatever the flag. *)
Theorem sequential_needs_claim_indexes (executable : string) (spawn : spawner)
    (args : Args) (fs : files) (b : bool) :
  truthy (claim_indexes args) = false →
  main executable spawn (with_sequential b args) fs = main executable spawn args fs
  ∧ ∀ hts, prepare_runs args hts [] 0%nat = (map (λ h, (h, None)) hts, length hts).
Proof.
  intros Hnone. split.
  - unfold main, requested, plan. simpl.
    destruct (list_helpers args); [done|].
    destruct (if truthy (helper_types args) then _ else _) as [e|hts]; [done|].
    destruct hts as [|h hts]; [done|].
    destruct (get_available_helper_types _ _) as [e|available]; [done|].
    destruct (filter _ (h :: hts)); [|done].
    rewrite prepare_runs_flag by done.
    destruct (prepare_runs args (h :: hts) [] 0) as [runs total_runs].
    by rewrite execute_runs_flag.
  - intros hts. rewrite RunsSpec.prepare_runs_one_each by (by rewrite Hnone, andb_false_r).
    unfold single_claim_index. by rewrite Hnone.
Qed.

Lemma sequential_needs_claim_indexes_witness :
  main "python" (all_exit 0) (request (Some ["vanilla"]) None true)
    (settings_with ["vanilla"]) =
  main "python" (all_exit 0) (request (Some ["vanilla"]) None false)
    (settings_with ["vanilla"]).
Proof.
  exact (proj1 (sequential_needs_claim_indexes "python" (all_exit 0)
           (request (Some ["vanilla"]) None false) (settings_with ["vanilla"])
           true eq_refl)).
Defined.

Section counting.
Variable executable : string.
Variable spawn : spawner.
Variable args : Args.

Lemma execute_runs_outcomes (runs : list run) (t : tally) :
  let t' := execute_runs executable spawn args runs t in
  let results :=
    imap (λ n r, run_single_debate executable spawn (calls t + n) r.1 r.2
                   (settings_path args) (models_path args)) runs in
  successful_runs t' =
    (successful_runs t + length (filter (λ b, b = true) results))%nat
  ∧ failed_runs t' =
    (failed_runs t + length (filter (λ b, b = false) results))%nat.
Proof.
  revert t. induction runs as [|[h i] runs IH]; intros t; simpl; [lia|].
  rewrite Nat.add_0_r.
  assert (∀ c, imap ((λ n r, run_single_debate executable spawn (c + n)
                        r.1 r.2 (settings_path args) (models_path args)) ∘ S) runs =
               imap (λ n r, run_single_debate executable spawn (S c + n)
                        r.1 r.2 (settings_path args) (models_path args)) runs) as Hshift.
  { intros c. apply imap_ext. intros n r _. simpl. f_equal. lia. }
  rewrite Hshift.
  destruct (run_single_debate executable spawn (calls t) h i _ _) eqn:Hrun;
    match goal with |- context [execute_runs _ _ _ _ ?u] =>
      destruct (IH u) as [IHs IHf] end;
    simpl in IHs, IHf; rewrite IHs, IHf;
    rewrite !filter_cons; repeat case_decide; try done; simpl; lia.
Qed.

(** [X3] The counters of the summary count the invocations by what
    [run_single_debate] returned: [successful_runs] is the number of
    planned entries whose child process exited with code 0,
    [failed_runs] the number of those that exited otherwise or could not
    be started; the [n]-th entry is judged by the [n]-th invocation. *)
Theorem counters_count_outcomes (runs : list run) :
  let t := execute_runs executable spawn args runs start in
  successful_runs t =
    length (filter (λ b, b = true) (outcomes executable spawn args runs))
  ∧ failed_runs t =
    length (filter (λ b, b = false) (outcomes executable spawn args runs))
  ∧ ∀ n r, runs !! n = Some r →
      (outcomes executable spawn args runs !! n = Some true ↔
       ∃ stderr, spawn n (command executable r.1 r.2
                            (settings_path args) (models_path args))
                 = Exited 0 stderr).
Proof.
  intros t. subst t.
  destruct (execute_runs_outcomes runs start) as [Hs Hf]. simpl in Hs, Hf.
  split_and!; [done..|].
  intros n r Hn. unfold outcomes, run in *. rewrite list_lookup_imap, Hn. simpl.
  unfold run_single_debate.
  destruct (spawn n _) as [returncode stderr|e]; split.
  - intros [= Hz%bool_decide_eq_true]. subst. eauto.
  - intros [stderr' [= -> _]]. done.
  - done.
  - by intros [? [=]].
Qed.

Lemma no_false_all_true (l : list bool) :
  length (filter (λ b, b = false) l) = 0%nat ↔ Forall (λ b, b = true) l.
Proof.
  induction l as [|b l IHl]; [split; [constructor|done]|].
  rewrite Forall_cons. destruct b.
  - rewrite filter_cons_False by done. rewrite IHl. tauto.
  - rewrite filter_cons_True by done. simpl. split; [lia|by intros [? _]].
Qed.

(** [X4] When [main] reaches the summary, the exit status is 0 if every
    planned entry succeeded and 1 otherwise: one failed invocation is
    enough, wherever it is in the plan, and the later entries are still
    run. *)
Theorem exit_status_reflects_failures (fs : files) :
  match main executable spawn args fs with
  | Summary runs _ t exit_code =>
      (exit_code = 0 ↔
       Forall (λ b, b = true) (outcomes executable spawn args runs))
      ∧ (exit_code = 1 ↔
         ∃ n, outcomes executable spawn args runs !! n = Some false)
      ∧ length (issued t) = length runs
  | _ => True
  end.
Proof.
  destruct (main executable spawn args fs) as [| | | |runs total t code] eqn:Hmain;
    try done.
  assert (t = execute_runs executable spawn args runs start
          ∧ code = if decide (0 < failed_runs t)%nat then 1 else 0) as [Ht Hcode].
  { unfold main in Hmain. destruct (list_helpers args).
    { by destruct (get_available_helper_types _ _). }
    destruct (requested args fs) as [e|hts]; [done|].
    destruct (plan args fs hts) as [stop|[runs' total']] eqn:Hplan.
    - unfold plan in Hplan. destruct hts; [by simplify_eq|].
      destruct (get_available_helper_types _ _); [by simplify_eq|].
      destruct (filter _ _); by simplify_eq.
    - by simplify_eq. }
  destruct (execute_runs_outcomes runs start) as [_ Hf]. simpl in Hf.
  fold (outcomes executable spawn args runs) in Hf. rewrite <- Ht in Hf.
  assert (failed_runs t = 0%nat ↔
          Forall (λ b, b = true) (outcomes executable spawn args runs)) as Hzero.
  { rewrite Hf. apply no_false_all_true. }
  split_and!.
  - rewrite <- Hzero, Hcode. case_decide; split; (lia || done).
  - rewrite Hcode. case_decide as Hpos.
    + split; [intros _|done].
      destruct (decide (Forall (λ b, b = true) (outcomes executable spawn args runs)))
        as [Hall|Hsome]; [apply Hzero in Hall; lia|].
      apply not_Forall_Exists in Hsome; [|apply _].
      apply Exists_exists in Hsome as (b & Hin & Hb).
      apply list_elem_of_lookup in Hin as [n Hn]. exists n.
      destruct b; [by destruct Hb|done].
    + split; [done|]. intros [n Hn].
      assert (failed_runs t = 0%nat) as Hz by lia. apply Hzero in Hz.
      rewrite Forall_lookup in Hz. by specialize (Hz n false Hn).
  - rewrite Ht, RunsSpec.execute_runs_issued. simpl. by rewrite length_map.
Qed.
End counting.

(** [X5] When the settings file cannot be opened or parsed, [load_config]
    returns an empty configuration and nothing is ever run: the listing
    is empty, a request naming helper types is rejected with all of them
    reported invalid, and a request naming none finds no helper types. *)
Theorem unreadable_settings_run_nothing (executable : string) (spawn : spawner)
    (args : Args) (fs : files) :
  fs (settings_path args) = None →
  get_available_helper_types fs (settings_path args) = inr []
  ∧ invocations (main executable spawn args fs) = []
  ∧ main executable spawn args fs =
    (if list_helpers args then ListedHelpers []
     else if truthy (helper_types args)
          then InvalidHelpers (default [] (helper_types args)) []
          else NoHelperTypes).
Proof.
  intros Hfs.
  assert (get_available_helper_types fs (settings_path args) = inr []) as Hav.
  { unfold get_available_helper_types, load_config. by rewrite Hfs. }
  assert (main executable spawn args fs =
          (if list_helpers args then ListedHelpers []
           else if truthy (helper_types args)
                then InvalidHelpers (default [] (helper_types args)) []
                else NoHelperTypes)) as Hmain.
  { unfold main, requested, plan. rewrite Hav.
    destruct (list_helpers args); [done|].
    destruct (helper_types args) as [[|h hts]|]; simpl; try done.
    f_equal. apply filter_all. intros ? _. apply not_elem_of_nil. }
  split_and!; [done| |done].
  rewrite Hmain. by repeat case_match.
Qed.

Lemma unreadable_settings_run_nothing_witness :
  main "python" (all_exit 0) (request (Some ["vanilla"; "fallacy"]) None false)
    (λ _, None) =
  InvalidHelpers ["vanilla"; "fallacy"] [].
Proof.
  exact (proj2 (proj2 (unreadable_settings_run_nothing "python" (all_exit 0)
           (request (Some ["vanilla"; "fallacy"]) None false) (λ _, None) eq_refl))).
Defined.

(** [X6] A settings file that parses to something other than a mapping
    (an empty file parses to null), or whose [agent_configurations] is
    present and not a mapping, is not caught by [load_config]: the
    [AttributeError] of [get_available_helper_types] escapes [main] in
    every mode, before anything is run.  These are the only settings on
    which it raises. *)
Theorem malformed_settings_escape (executable : string) (spawn : spawner)
    (args : Args) (fs : files) :
  ((∃ e, get_available_helper_types fs (settings_path args) = inl e) ↔
   ∃ y, fs (settings_path args) = Some y
        ∧ match y with
          | YMap config =>
              ∃ v, yaml_get "agent_configurations" config = Some v
                   ∧ is_mapping v = false
          | _ => True
          end)
  ∧ (∀ e, get_available_helper_types fs (settings_path args) = inl e →
          main executable spawn args fs = Uncaught e
          ∧ exit_status (main executable spawn args fs) = 1
          ∧ invocations (main executable spawn args fs) = []).
Proof.
  split.
  - unfold get_available_helper_types, load_config.
    destruct (fs (settings_path args)) as [y|]; cycle 1.
    { split; [by intros [e [=]]|by intros (y & [=] & _)]. }
    destruct y as [|sc|l|config].
    1-3: (split; [intros _; eexists; split; [reflexivity|exact I]
                 |intros _; eexists; reflexivity]).
    destruct (yaml_get "agent_configurations" config) as [v|] eqn:Hget; simpl.
    + destruct v as [|sc|l|m]; simpl.
      1-3: (split; [intros _; exists (YMap config); split; [done|];
                    eexists; split; [exact Hget|done]
                   |intros _; eexists; reflexivity]).
      split; [by intros [e [=]]|].
      intros (y & [= <-] & v & Hv & Hm). rewrite Hget in Hv. by simplify_eq.
    + split; [by intros [e [=]]|].
      intros (y & [= <-] & v & Hv & _). congruence.
  - intros e He.
    assert (main executable spawn args fs = Uncaught e) as Hmain.
    { unfold main, requested, plan. rewrite He.
      destruct (list_helpers args); [done|].
      by destruct (helper_types args) as [[|h hts]|]. }
    by rewrite Hmain.
Qed.

Lemma malformed_settings_escape_witness :
  main "python" (all_exit 0) (request (Some ["vanilla"]) None false)
    (λ _, Some YNull) =
  Uncaught (AttributeError "object has no attribute 'get'").
Proof.
  exact (proj1 (proj2 (malformed_settings_escape "python" (all_exit 0)
           (request (Some ["vanilla"]) None false) (λ _, Some YNull))
           _ eq_refl)).
Defined.

(** [X7] For given paths the command line determines the run: two
    entries with the same command line have the same helper type and the
    same claim index (none, or the same integer). *)
Theorem command_determines_run (executable : string) (h h' : string)
    (i i' : option Z) (settings_path models_path : string) :
  command executable h i settings_path models_path =
  command executable h' i' settings_path models_path →
  h = h' ∧ i = i'.
Proof.
  unfold command. intros Heq. simpl in Heq. injection Heq as Hh Hrest.
  split; [done|].
  destruct i as [i|], i' as [i'|]; simpl in Hrest.
  - injection Hrest as Hp. apply (inj pretty) in Hp. by subst.
  - repeat case_decide; simpl in Hrest; discriminate Hrest.
  - repeat case_decide; simpl in Hrest; discriminate Hrest.
  - done.
Qed.

Lemma command_determines_run_witness :
  "vanilla" = "vanilla" ∧ Some 3 = Some 3.
Proof.
  exact (command_determines_run "python" "vanilla" "vanilla" (Some 3) (Some 3)
           "s.yaml" "m.yaml" eq_refl).
Defined.

End RunsMore.


(** ** More on the result store *)

Module StoreMore.
Import Utils.

(** Every path through [save_debate_in_excel], by cases on what the
    operating system and the arguments are. *)
Ltac save_paths ev claim_data s :=
  unfold save_debate_in_excel, with_lock, try_except, locked_body, load_frame,
    store_frame, on_error, bind, get_claim, path_exists, read_excel, to_excel,
    logger_error, logger_info, ret, raise;
  destruct ev as [[w|] [|we left_behind] rl]; simpl;
  try destruct (decide (w ≤ lock_timeout));
  destruct claim_data as [d|v];
  destruct s as [[[df|e]|] lg]; simpl.

Lemma save_trace (ev : env) (topic_id helper_type chat_id result rounds : pyval)
    (claim_data : claim_arg) (s : state) :
  let r := save_debate_in_excel ev topic_id helper_type chat_id result rounds
             claim_data s in
  ∃ pre c,
    log r.1 = log s ++ pre ++ [c]
    ∧ Forall (λ x, levelname x = ERROR ∧ extra x = system_extra) pre
    ∧ (length pre ≤ 1)%nat
    ∧ extra c = system_extra
    ∧ ((r.2 = inr true ∧ levelname c = INFO)
       ∨ (r.2 = inr false ∧ levelname c = ERROR)).
Proof.
  save_paths ev claim_data s;
    first [ eexists [], _; split; [reflexivity|]
          | eexists [_], _; split; [by rewrite <- app_assoc|] ];
    (split_and!; [repeat constructor..|simpl; lia|done|auto]).
Qed.

(** [X8] The last record a call logs tells how it ended: the call adds
    one or two records after those already logged, and it returns [True]
    exactly when the last one is at level INFO (the success message) and
    [False] exactly when it is at level ERROR. *)
Theorem last_record_tells_result (ev : env)
    (topic_id helper_type chat_id result rounds : pyval)
    (claim_data : claim_arg) (s : state) :
  let r := save_debate_in_excel ev topic_id helper_type chat_id result rounds
             claim_data s in
  ∃ c, last (log r.1) = Some c
       ∧ (r.2 = inr true ↔ levelname c = INFO)
       ∧ (r.2 = inr false ↔ levelname c = ERROR)
       ∧ (length (log s) < length (log r.1) ≤ length (log s) + 2)%nat
       ∧ take (length (log s)) (log r.1) = log s.
Proof.
  intros r. destruct (save_trace ev topic_id helper_type chat_id result rounds
                        claim_data s) as (pre & c & Hlog & _ & Hlen & _ & Hres).
  fold r in Hlog, Hres. exists c. rewrite Hlog.
  split; [|split; [|split; [|split]]].
  - by rewrite app_assoc, last_snoc.
  - destruct Hres as [[-> ->]|[-> ->]]; split; done.
  - destruct Hres as [[-> ->]|[-> ->]]; split; done.
  - rewrite !length_app. simpl. lia.
  - by rewrite take_app_length.
Qed.

(** [X9] A call that returns [False] without the write having failed
    (the marker was not acquired in time, or [claim_data] has no [.get])
    leaves the table file exactly as it was. *)
Theorem failure_before_write_keeps_file (ev : env)
    (topic_id helper_type chat_id result rounds : pyval)
    (claim_data : claim_arg) (s : state) :
  write ev = Written →
  (save_debate_in_excel ev topic_id helper_type chat_id result rounds
     claim_data s).2 = inr false →
  disk (save_debate_in_excel ev topic_id helper_type chat_id result rounds
          claim_data s).1 = disk s.
Proof.
  save_paths ev claim_data s; intros Hw Hr; simplify_eq; done.
Qed.

Lemma failure_before_write_keeps_file_witness :
  disk (save_of contended sample_caller corrupt).1 = disk corrupt.
Proof.
  exact (failure_before_write_keeps_file contended (VInt 3) (VStr "vanilla")
           (VStr "a1") (VInt 1) (VInt 4)
           (Mapping [("claim", VStr "Cats are liquid")]) corrupt
           eq_refl eq_refl).
Defined.

Lemma appends_replayed (ev : env) (w : Z) (cs : list caller) (s : state) :
  lock_wait ev = Some w → w ≤ lock_timeout →
  write ev = Written →
  Forall (λ c, ∃ d, c_claim_data c = Mapping d) cs →
  disk (save_each ev cs s) = foldl (append_row ev) (disk s) (row_of <$> cs).
Proof.
  intros Hw Hle Hwr Hcs. revert s.
  induction Hcs as [|c cs [d Hd] _ IH]; intros s; simpl; [done|].
  rewrite IH. unfold save_of.
  destruct (StoreSpec.save_written ev (c_topic_id c) (c_helper_type c)
              (c_chat_id c) (c_result c) (c_rounds c) (c_claim_data c)
              s d w Hw Hle Hd Hwr) as [lg ->].
  simpl. unfold row_of. by rewrite Hd.
Qed.

(** [X10] Appends made one after the other, each with the marker
    acquired, a mapping as [claim_data] and a successful write: each
    call saves what it loaded from the table (nothing if the file was
    missing or unreadable) followed by its own row, so that the last row
    of the table is the row of the last call.  The table has gained one
    row per call when loading a saved table keeps the number of its
    rows, and it holds the rows it had followed by the rows of the
    calls, in their order, when loading returns the rows as they were
    saved. *)
Theorem appends_accumulate (ev : env) (w : Z) (cs : list caller) (s : state) :
  lock_wait ev = Some w → w ≤ lock_timeout →
  write ev = Written →
  Forall (λ c, ∃ d, c_claim_data c = Mapping d) cs →
  disk (save_each ev cs s) = foldl (append_row ev) (disk s) (row_of <$> cs)
  ∧ (cs ≠ [] →
     last (frame_of (disk (save_each ev cs s))) = last (row_of <$> cs))
  ∧ ((∀ df, length (reload ev df) = length df) →
     length (frame_of (disk (save_each ev cs s))) =
     (length (frame_of (disk s)) + length cs)%nat)
  ∧ ((∀ df, reload ev df = df) →
     frame_of (disk (save_each ev cs s)) = frame_of (disk s) ++ map row_of cs).
Proof.
  intros Hw Hle Hwr Hcs.
  rewrite (appends_replayed ev w cs s Hw Hle Hwr Hcs). clear Hcs.
  generalize (disk s) as d. intros d.
  split_and!.
  - done.
  - intros Hcs. destruct cs as [|c cs _] using rev_ind; [done|].
    rewrite fmap_app, foldl_app. simpl. by rewrite !last_snoc.
  - intros Hlen. induction cs as [|c cs IH] using rev_ind; [simpl; lia|].
    rewrite fmap_app, foldl_app. cbn [fmap list_fmap foldl].
    rewrite StoreSpec.append_row_length, IH, length_app by done. simpl. lia.
  - intros Hid. induction cs as [|c cs IH] using rev_ind.
    + simpl. by rewrite app_nil_r.
    + rewrite fmap_app, foldl_app. cbn [fmap list_fmap foldl].
      rewrite StoreSpec.append_row_rows, IH by done.
      by rewrite map_app, app_assoc.
Qed.

Lemma appends_accumulate_witness :
  frame_of (disk (save_each reliable [sample_caller; other_caller] corrupt)) =
  [] ++ [row_of sample_caller; row_of other_caller].
Proof.
  refine (proj2 (proj2 (proj2
            (appends_accumulate reliable 0 [sample_caller; other_caller] corrupt
               eq_refl _ eq_refl _))) (λ _, eq_refl)).
  - unfold lock_timeout. lia.
  - repeat constructor; by eexists.
Defined.

(** [X11] Nothing the result store logs reaches the debate channels:
    every record of a call carries [msg_type = "system"], which neither
    [MainDebateFilter] nor [PersuadorHelperFilter] accepts. *)
Theorem store_records_not_routed (ev : env)
    (topic_id helper_type chat_id result rounds : pyval)
    (claim_data : claim_arg) (s : state) (base : LogMain.LogRecord)
    (c : log_call) :
  c ∈ logged s (save_debate_in_excel ev topic_id helper_type chat_id result
                  rounds claim_data s).1 →
  LogMain.record_of_call base c !! "msg_type" = Some (VStr "system")
  ∧ (∀ f, LogMain.filter_record f (LogMain.record_of_call base c) = false)
  ∧ LogMain.deliveries [LogMain.main_channel; LogMain.helper_channel]
      (LogMain.record_of_call base c) = [].
Proof.
  intros Hin.
  destruct (save_trace ev topic_id helper_type chat_id result rounds
              claim_data s) as (pre & c0 & Hlog & Hpre & _ & Hc0 & _).
  unfold logged in Hin. rewrite Hlog, drop_app_length in Hin.
  assert (extra c = system_extra) as Hextra.
  { apply elem_of_app in Hin as [Hin|Hin%list_elem_of_singleton]; [|by subst].
    rewrite Forall_forall in Hpre. by apply Hpre. }
  assert (LogMain.record_of_call base c !! "msg_type" = Some (VStr "system")) as Htag.
  { unfold LogMain.record_of_call. rewrite Hextra. simpl. apply lookup_insert_eq. }
  assert (∀ f, LogMain.filter_record f (LogMain.record_of_call base c) = false) as Hno.
  { intros f. unfold LogMain.filter_record, LogMain.getattr_or_none.
    rewrite Htag. by destruct f. }
  split_and!; [done..|].
  destruct (LogMain.deliveries _ _) as [|ch l] eqn:Hd; [done|].
  assert (ch ∈ LogMain.deliveries [LogMain.main_channel; LogMain.helper_channel]
                 (LogMain.record_of_call base c)) as Hch by (rewrite Hd; left).
  unfold LogMain.deliveries in Hch.
  apply list_elem_of_filter in Hch as [Hacc Hch].
  repeat (apply elem_of_cons in Hch as [->|Hch];
          [unfold LogMain.accepts in Hacc; simpl in Hacc;
           rewrite Hno in Hacc; discriminate Hacc|]).
  by apply elem_of_nil in Hch.
Qed.

Lemma store_records_not_routed_witness :
  LogMain.deliveries [LogMain.main_channel; LogMain.helper_channel]
    (LogMain.record_of_call ∅
       {| levelname := ERROR;
          msg := "Error saving debate to Excel: The file lock 'all_debates_summary.xlsx.lock' could not be acquired.";
          extra := [("msg_type", VStr "system")] |}) = [].
Proof.
  refine (proj2 (proj2 (store_records_not_routed contended (VInt 3)
            (VStr "vanilla") (VStr "a1") (VInt 1) (VInt 4)
            (Mapping [("claim", VStr "Cats are liquid")]) fresh ∅ _ _))).
  unfold logged. simpl. left.
Defined.

End StoreMore.


(** ** The run directories *)

Module DirSpec.
Import Utils.

Lemma string_app_assoc (s t u : string) : (s +:+ t) +:+ u = s +:+ t +:+ u.
Proof.
  induction s as [|c s IH]; [done|].
  change (String c ((s +:+ t) +:+ u) = String c (s +:+ t +:+ u)). by f_equal.
Qed.

Lemma string_app_nil_r (s : string) : s +:+ "" = s.
Proof.
  induction s as [|c s IH]; [done|].
  change (String c (s +:+ "") = String c s). by f_equal.
Qed.

Lemma join_step_relative (path b : string) :
  starts_with_sep b = false → ∃ rest, join_step path b = path +:+ rest.
Proof.
  intros Hrel. unfold join_step. rewrite Hrel.
  destruct (_ || _); [by exists b|]. by exists ("/" +:+ b).
Qed.

Lemma path_join_relative (a : string) (p : list string) :
  Forall (λ b, starts_with_sep b = false) p → ∃ rest, path_join a p = a +:+ rest.
Proof.
  unfold path_join. intros Hp. revert a.
  induction Hp as [|b p Hb _ IH]; intros a; simpl.
  - exists "". by rewrite string_app_nil_r.
  - destruct (join_step_relative a b Hb) as [r1 ->].
    destruct (IH (a +:+ r1)) as [r2 ->]. exists (r1 +:+ r2).
    by rewrite string_app_assoc.
Qed.

Section file_system.
Variable FS : Type.
Variable path_exists_in : FS → string → bool.
Variable makedirs : FS → string → FS * (exn + ()).
Hypothesis laws : fs_laws path_exists_in makedirs.

Lemma ensure_dir_made (fs fs' : FS) (p : string) :
  ensure_dir FS path_exists_in makedirs fs p = (fs', inr ()) →
  path_exists_in fs' p = true.
Proof.
  unfold ensure_dir. destruct (path_exists_in fs p) eqn:Hp.
  - by intros [= <-].
  - apply laws.
Qed.

Lemma ensure_dir_keeps (fs fs' : FS) (p q : string) (r : exn + ()) :
  ensure_dir FS path_exists_in makedirs fs p = (fs', r) →
  path_exists_in fs q = true → path_exists_in fs' q = true.
Proof.
  unfold ensure_dir. destruct (path_exists_in fs p) eqn:Hp.
  - by intros [= <- _].
  - destruct laws as [_ Hkeep]. apply Hkeep.
Qed.

Lemma ensure_dir_there (fs : FS) (p : string) :
  path_exists_in fs p = true →
  ensure_dir FS path_exists_in makedirs fs p = (fs, inr ()).
Proof. unfold ensure_dir. by intros ->. Qed.

Section call.
Variables topic_id chat_id : pyval.
Variables helper_type debates_base_dir : string.

Abbreviation create fs :=
  (create_debate_directory FS path_exists_in makedirs fs topic_id chat_id
     helper_type debates_base_dir).
Abbreviation topic_dir := (path_join debates_base_dir [py_str topic_id]).
Abbreviation helper_dir :=
  (path_join (path_join debates_base_dir [py_str topic_id]) [helper_type]).
Abbreviation chat_dir :=
  (path_join (path_join debates_base_dir [py_str topic_id])
     [helper_type; py_str chat_id]).

(** [X12] When [create_debate_directory] returns, it returns the path
    joined from the base directory, the topic, the helper type and the
    chat, and that directory and the three above it exist; whatever
    existed before still exists. *)
Theorem directories_exist_after (fs fs' : FS) (p : string) :
  create_debate_directory FS path_exists_in makedirs fs topic_id chat_id
    helper_type debates_base_dir = (fs', inr p) →
  p = path_join debates_base_dir [py_str topic_id; helper_type; py_str chat_id]
  ∧ path_exists_in fs' debates_base_dir = true
  ∧ path_exists_in fs' topic_dir = true
  ∧ path_exists_in fs' helper_dir = true
  ∧ path_exists_in fs' p = true
  ∧ ∀ q, path_exists_in fs q = true → path_exists_in fs' q = true.
Proof.
  unfold create_debate_directory.
  destruct (ensure_dir _ _ _ fs debates_base_dir) as [fs1 [e|[]]] eqn:H1; [done|].
  destruct (ensure_dir _ _ _ fs1 topic_dir) as [fs2 [e|[]]] eqn:H2; [done|].
  destruct (ensure_dir _ _ _ fs2 helper_dir) as [fs3 [e|[]]] eqn:H3; [done|].
  destruct (ensure_dir _ _ _ fs3 chat_dir) as [fs4 [e|[]]] eqn:H4; [done|].
  intros [= <- <-].
  pose proof (ensure_dir_made _ _ _ H1) as E1.
  pose proof (ensure_dir_made _ _ _ H2) as E2.
  pose proof (ensure_dir_made _ _ _ H3) as E3.
  pose proof (ensure_dir_made _ _ _ H4) as E4.
  split_and!; [done| | | |done|].
  - eapply ensure_dir_keeps; [exact H4|]. eapply ensure_dir_keeps; [exact H3|].
    by eapply ensure_dir_keeps.
  - eapply ensure_dir_keeps; [exact H4|]. by eapply ensure_dir_keeps.
  - by eapply ensure_dir_keeps.
  - intros q Hq.
    eapply ensure_dir_keeps; [exact H4|]. eapply ensure_dir_keeps; [exact H3|].
    eapply ensure_dir_keeps; [exact H2|]. by eapply ensure_dir_keeps.
Qed.

Lemma create_all_there (fs : FS) :
  path_exists_in fs debates_base_dir = true →
  path_exists_in fs topic_dir = true →
  path_exists_in fs helper_dir = true →
  path_exists_in fs chat_dir = true →
  create fs = (fs, inr chat_dir).
Proof.
  intros E1 E2 E3 E4. unfold create_debate_directory.
  rewrite (ensure_dir_there fs _ E1), (ensure_dir_there fs _ E2).
  by rewrite (ensure_dir_there fs _ E3), (ensure_dir_there fs _ E4).
Qed.

(** [X13] Calling [create_debate_directory] again with the same
    arguments changes nothing and returns the same path: once the four
    directories exist, [os.makedirs] is not called at all. *)
Theorem create_again_changes_nothing (fs fs' : FS) (p : string) :
  create_debate_directory FS path_exists_in makedirs fs topic_id chat_id
    helper_type debates_base_dir = (fs', inr p) →
  create_debate_directory FS path_exists_in makedirs fs' topic_id chat_id
    helper_type debates_base_dir = (fs', inr p).
Proof.
  intros Hrun.
  destruct (directories_exist_after fs fs' p Hrun) as (Hp & E1 & E2 & E3 & E4 & _).
  assert (p = chat_dir) as -> by done.
  by apply create_all_there.
Qed.

(** [X14] Whether it returns or raises, [create_debate_directory]
    removes nothing: every path that existed before the call exists
    after it, also when a later [os.makedirs] fails after earlier
    directories were made.  An exception it raises is one raised by
    [os.makedirs] on a path that did not exist. *)
Theorem create_removes_nothing (fs fs' : FS) (r : exn + string) :
  create_debate_directory FS path_exists_in makedirs fs topic_id chat_id
    helper_type debates_base_dir = (fs', r) →
  (∀ q, path_exists_in fs q = true → path_exists_in fs' q = true)
  ∧ (∀ e, r = inl e →
       ∃ fs0 q, path_exists_in fs0 q = false ∧ makedirs fs0 q = (fs', inl e)).
Proof.
  unfold create_debate_directory.
  assert (∀ fs0 q fs1 e,
            ensure_dir FS path_exists_in makedirs fs0 q = (fs1, inl e) →
            path_exists_in fs0 q = false ∧ makedirs fs0 q = (fs1, inl e)) as Hraise.
  { intros fs0 q fs1 e. unfold ensure_dir.
    destruct (path_exists_in fs0 q); [by intros [=]|done]. }
  destruct (ensure_dir _ _ _ fs debates_base_dir) as [fs1 r1] eqn:H1.
  destruct r1 as [e|[]].
  { intros [= <- <-]. split; [intros q; by eapply ensure_dir_keeps|].
    intros e' [= <-]. exists fs, debates_base_dir. by apply Hraise. }
  destruct (ensure_dir _ _ _ fs1 topic_dir) as [fs2 r2] eqn:H2.
  destruct r2 as [e|[]].
  { intros [= <- <-]. split.
    - intros q Hq. eapply ensure_dir_keeps; [exact H2|]. by eapply ensure_dir_keeps.
    - intros e' [= <-]. exists fs1, topic_dir. by apply Hraise. }
  destruct (ensure_dir _ _ _ fs2 helper_dir) as [fs3 r3] eqn:H3.
  destruct r3 as [e|[]].
  { intros [= <- <-]. split.
    - intros q Hq. eapply ensure_dir_keeps; [exact H3|].
      eapply ensure_dir_keeps; [exact H2|]. by eapply ensure_dir_keeps.
    - intros e' [= <-]. exists fs2, helper_dir. by apply Hraise. }
  destruct (ensure_dir _ _ _ fs3 chat_dir) as [fs4 r4] eqn:H4.
  destruct r4 as [e|[]].
  { intros [= <- <-]. split.
    - intros q Hq. eapply ensure_dir_keeps; [exact H4|].
      eapply ensure_dir_keeps; [exact H3|].
      eapply ensure_dir_keeps; [exact H2|]. by eapply ensure_dir_keeps.
    - intros e' [= <-]. exists fs3, chat_dir. by apply Hraise. }
  intros [= <- <-]. split; [|done].
  intros q Hq. eapply ensure_dir_keeps; [exact H4|].
  eapply ensure_dir_keeps; [exact H3|].
  eapply ensure_dir_keeps; [exact H2|]. by eapply ensure_dir_keeps.
Qed.
End call.
End file_system.

(** [X15] The returned path lies under the base directory when the
    topic, the helper type and the chat identifier are relative: it is
    the base directory followed by more text.  A helper type that starts
    with a separator replaces what precedes it: the returned path is
    then joined from the helper type and the chat identifier alone. *)
Theorem returned_path_shape (topic_id chat_id : pyval)
    (helper_type debates_base_dir : string) :
  let p := path_join debates_base_dir
             [py_str topic_id; helper_type; py_str chat_id] in
  (starts_with_sep (py_str topic_id) = false →
   starts_with_sep helper_type = false →
   starts_with_sep (py_str chat_id) = false →
   ∃ rest, p = debates_base_dir +:+ rest)
  ∧ (starts_with_sep helper_type = true →
     p = path_join helper_type [py_str chat_id]).
Proof.
  intros p. subst p. split.
  - intros H1 H2 H3. apply path_join_relative. by repeat constructor.
  - intros Habs. unfold path_join. simpl.
    unfold join_step at 2. by rewrite Habs.
Qed.

Lemma listed_laws : fs_laws listed_exists listed_makedirs.
Proof.
  unfold fs_laws, listed_exists, listed_makedirs. split.
  - intros fs p fs'. destruct (bool_decide (p ∈ fs)); [by intros [=]|].
    destruct (bool_decide (p = "")); [by intros [=]|]. intros [= <-].
    apply bool_decide_eq_true. left.
  - intros fs p fs' r q. destruct (bool_decide (p ∈ fs)); [by intros [= <- _]|].
    destruct (bool_decide (p = "")); [by intros [= <- _]|].
    intros [= <- _] Hq%bool_decide_eq_true. apply bool_decide_eq_true. by right.
Qed.

Lemma directories_exist_after_witness :
  listed_exists
    ["debates/3/vanilla/a1"; "debates/3/vanilla"; "debates/3"; "debates"]
    "debates/3/vanilla/a1" = true.
Proof.
  refine (proj1 (proj2 (proj2 (proj2 (proj2
    (directories_exist_after (list string) listed_exists listed_makedirs
       listed_laws (VInt 3) (VStr "a1") "vanilla" default_debates_base_dir
       [] _ "debates/3/vanilla/a1" _)))))).
  vm_compute. reflexivity.
Defined.

Lemma create_again_changes_nothing_witness :
  create_debate_directory (list string) listed_exists listed_makedirs
    ["debates/3/vanilla/a1"; "debates/3/vanilla"; "debates/3"; "debates"]
    (VInt 3) (VStr "a1") "vanilla" default_debates_base_dir =
  (["debates/3/vanilla/a1"; "debates/3/vanilla"; "debates/3"; "debates"],
   inr "debates/3/vanilla/a1").
Proof.
  refine (create_again_changes_nothing (list string) listed_exists
            listed_makedirs listed_laws (VInt 3) (VStr "a1") "vanilla"
            default_debates_base_dir [] _ _ _).
  vm_compute. reflexivity.
Defined.

Lemma create_removes_nothing_witness :
  listed_exists
    ["debates/3/vanilla/a1"; "debates/3/vanilla"; "debates/3"; "debates"]
    "debates/3" = true.
Proof.
  refine (proj1 (create_removes_nothing (list string) listed_exists
            listed_makedirs listed_laws (VInt 3) (VStr "a1") "vanilla"
            default_debates_base_dir ["debates/3"; "debates"] _
            (inr "debates/3/vanilla/a1") _) "debates/3" _).
  - vm_compute. reflexivity.
  - vm_compute. reflexivity.
Defined.

Lemma returned_path_shape_witness :
  path_join "debates" ["3"; "/tmp/x"; "a1"] = path_join "/tmp/x" ["a1"].
Proof.
  exact (proj2 (returned_path_shape (VInt 3) (VStr "a1") "/tmp/x" "debates")
           eq_refl).
Defined.

End DirSpec.


(** ** More on the formatter *)

Module LogMore.
Import LogMain.

Section formatting.
Variable getMessage : LogRecord → string.
Variable isoformat_utc : LogRecord → string.

(** The envelope of the empty specification, for a message and a time
    that have been rendered. *)
Lemma empty_specification_envelope (record : LogRecord) :
  ∃ message,
    _prepare_log_dict getMessage isoformat_utc (init_fmt_keys None) record
    = inr message
    ∧ keys message =
      filter (λ a, is_Some (record !! a)) extra_attrs ++ ["message"; "timestamp"]
    ∧ (∀ a, a ∈ extra_attrs → dict_get a message = record !! a)
    ∧ dict_get "message" message = Some (VStr (getMessage record))
    ∧ dict_get "timestamp" message = Some (VStr (isoformat_utc record)).
Proof.
  destruct (LogSpec.prepare_log_dict_spec getMessage isoformat_utc record []
              (NoDup_nil_2)) as (message & Hrun & Hkeys & _ & _ & Hattr & Hcomp).
  { by intros i key val [=]. }
  exists message. split_and!.
  - done.
  - rewrite Hkeys. unfold stage_declared, stage_extras, stage_computed. simpl.
    f_equal.
    apply filter_ext_in. intros a _. split; [by intros [? _]|].
    intros Hs. split; [done|apply not_elem_of_nil].
  - intros a Ha. apply Hattr; [done|apply not_elem_of_nil].
  - rewrite Hcomp; [done|left|apply not_elem_of_nil].
  - rewrite Hcomp; [done|right; left|apply not_elem_of_nil].
Qed.

(** [X17] An envelope formatted for a record that a filter accepts
    carries the filter's tag: when no declared key is named [msg_type]
    (and the sources resolve), the envelope has [msg_type] with the
    literal of the filter as its value. *)
Theorem accepted_envelope_has_tag (fmt_keys : odict string)
    (record : LogRecord) (f : log_filter) :
  dict_wf fmt_keys →
  sources_resolve fmt_keys record →
  "msg_type" ∉ keys fmt_keys →
  filter_record f record = true →
  ∃ message,
    _prepare_log_dict getMessage isoformat_utc fmt_keys record = inr message
    ∧ dict_get "msg_type" message = Some (VStr (tag_of f)).
Proof.
  intros Hwf Hsrc Hkey Hacc.
  destruct (LogSpec.prepare_log_dict_spec getMessage isoformat_utc record
              fmt_keys Hwf Hsrc) as (message & Hrun & _ & _ & _ & Hattr & _).
  exists message. split; [done|].
  rewrite Hattr; [|left|done].
  unfold filter_record, getattr_or_none in Hacc.
  apply bool_decide_eq_true in Hacc.
  destruct (record !! "msg_type") as [v|]; simpl in Hacc; by subst.
Qed.

(** Two records that agree on the names a loop reads give the same
    result. *)
Lemma declared_keys_agree (r1 r2 : LogRecord) (items : odict string)
    (always message : odict pyval) :
  (∀ k, k ∈ sources items → r1 !! k = r2 !! k) →
  declared_keys r1 items always message = declared_keys r2 items always message.
Proof.
  revert always message.
  induction items as [|[key val] items IH]; intros always message Hagree; [done|].
  simpl. unfold getattr.
  rewrite (Hagree val) by left.
  assert (∀ k, k ∈ sources items → r1 !! k = r2 !! k) as Hrest
    by (intros k Hk; apply Hagree; by right).
  destruct (dict_get val always); [by apply IH|].
  destruct (r2 !! val); [by apply IH|done].
Qed.

Lemma add_extras_agree (r1 r2 : LogRecord) (attrs : list string)
    (message : odict pyval) :
  (∀ k, k ∈ attrs → r1 !! k = r2 !! k) →
  add_extras r1 attrs message = add_extras r2 attrs message.
Proof.
  revert message.
  induction attrs as [|a attrs IH]; intros message Hagree; [done|].
  simpl. unfold hasattr, getattr_or_none. rewrite (Hagree a) by left.
  assert (∀ k, k ∈ attrs → r1 !! k = r2 !! k) as Hrest
    by (intros k Hk; apply Hagree; by right).
  destruct (_ && _); by apply IH.
Qed.

(** [X18] The envelope depends on the record only through the rendered
    message, the timestamp, the attributes named as sources and the six
    extra attributes: two records that agree on these are formatted
    alike (same envelope, or the same [AttributeError]); no other
    attribute of a record is ever emitted. *)
Theorem envelope_reads_named_attributes (fmt_keys : odict string)
    (r1 r2 : LogRecord) :
  getMessage r1 = getMessage r2 →
  isoformat_utc r1 = isoformat_utc r2 →
  (∀ k, k ∈ sources fmt_keys ∨ k ∈ extra_attrs → r1 !! k = r2 !! k) →
  _prepare_log_dict getMessage isoformat_utc fmt_keys r1 =
  _prepare_log_dict getMessage isoformat_utc fmt_keys r2.
Proof.
  intros Hm Ht Hagree. unfold _prepare_log_dict, always_include.
  rewrite Hm, Ht.
  rewrite (declared_keys_agree r1 r2) by (intros k Hk; apply Hagree; by left).
  destruct (declared_keys r2 fmt_keys _ _) as [e|[always message]]; [done|].
  by rewrite (add_extras_agree r1 r2) by (intros k Hk; apply Hagree; by right).
Qed.
End formatting.

(** [X16] A formatter built without [fmt_keys] (so with the empty
    specification) raises exactly when [record.getMessage()] or the
    rendering of [record.created] raises, with the exception of the
    first of them that does; no attribute that is missing makes it
    raise.  When both return, its envelope has, in this order, those of
    msg_type, speaker, receiver, sender, round, topic that are
    attributes of the record, then [message], then [timestamp].  An
    attribute set to [None] is emitted with the value [None], an
    attribute that is not set is left out. *)
Theorem default_envelope (getMessage isoformat_utc : LogRecord → exn + string)
    (record : LogRecord) :
  match getMessage record, isoformat_utc record with
  | inl e, _ =>
      prepare_log_dict getMessage isoformat_utc (init_fmt_keys None) record = inl e
  | inr _, inl e =>
      prepare_log_dict getMessage isoformat_utc (init_fmt_keys None) record = inl e
  | inr m, inr t =>
      ∃ message,
        prepare_log_dict getMessage isoformat_utc (init_fmt_keys None) record
        = inr message
        ∧ keys message =
          filter (λ a, is_Some (record !! a)) extra_attrs ++ ["message"; "timestamp"]
        ∧ (∀ a, a ∈ extra_attrs → dict_get a message = record !! a)
        ∧ dict_get "message" message = Some (VStr m)
        ∧ dict_get "timestamp" message = Some (VStr t)
  end.
Proof.
  unfold prepare_log_dict.
  destruct (getMessage record) as [e|m]; [done|].
  destruct (isoformat_utc record) as [e|t]; [done|].
  apply (empty_specification_envelope (λ _, m) (λ _, t) record).
Qed.

(** A message logged with a stray argument is not formatted at all;
    without the argument it is. *)
Example stray_argument_not_formatted :
  prepare_log_dict plain_getMessage (λ r, inr (sample_isoformat r))
    (init_fmt_keys None) stray_argument_event
  = inl (TypeError "not all arguments converted during string formatting")
  ∧ prepare_log_dict plain_getMessage (λ r, inr (sample_isoformat r))
      (init_fmt_keys None) bare_event
    = inr [("message", VStr "hello");
           ("timestamp", VStr "2025-01-01T00:00:00+00:00")].
Proof. split; vm_compute; reflexivity. Qed.

Lemma accepted_envelope_has_tag_witness :
  ∃ message,
    _prepare_log_dict sample_getMessage sample_isoformat
      [("text", "message")] debate_event = inr message
    ∧ dict_get "msg_type" message = Some (VStr "main debate").
Proof.
  refine (accepted_envelope_has_tag sample_getMessage sample_isoformat
            [("text", "message")] debate_event MainDebateFilter _ _ _ eq_refl).
  - apply NoDup_singleton.
  - intros [|i] key val; simpl; intros [= <- <-].
    left. split; [left|apply not_elem_of_nil].
  - intros Hk. LogSpec.no_member Hk.
Defined.

Lemma envelope_reads_named_attributes_witness :
  _prepare_log_dict sample_getMessage sample_isoformat [("text", "message")]
    (<["pathname" := VStr "/srv/app/debate.py"]> debate_event) =
  _prepare_log_dict sample_getMessage sample_isoformat [("text", "message")]
    debate_event.
Proof.
  refine (envelope_reads_named_attributes sample_getMessage sample_isoformat
            [("text", "message")]
            (<["pathname" := VStr "/srv/app/debate.py"]> debate_event)
            debate_event _ _ _).
  1-2: vm_compute; reflexivity.
  intros k Hk. rewrite lookup_insert_ne; [reflexivity|]. intros <-.
  destruct Hk as [Hk|Hk]; LogSpec.no_member Hk.
Defined.

End LogMore.
